(** * langgraph_text_writer: a shallow embedding of [tools.py] and [agents.py]

    The development has two halves.  The first half embeds the program:
    the Python values it manipulates, the tools of [tools.py] as functions
    over an explicit world (file store and external services), the state
    schemas, graph declarations and glue functions of [agents.py], and the
    graph engine the program drives.  The second half states and proves
    the properties of that embedding. *)

From stdpp Require Import gmap strings list sorting pretty.

Set Warnings "-register-all,-clear-no-such-hyp".

Local Open Scope string_scope.
Local Open Scope list_scope.
Local Open Scope Z_scope.

(** ** Python values and exceptions *)

Module Py.

(** The exception classes that the embedded code can raise or see
    raised; all are subclasses of [Exception]. *)
Inductive exn_class : Type :=
| NameError
| ValueError
| TypeError
| KeyError
| IndexError
| AttributeError
| FileNotFoundError
| JSONDecodeError
| GraphRoutingError
| GraphRecursionError
| ExternalError (cls : string).

(** An exception instance: its class and [str(e)]. *)
Record exn : Type := Exn { exn_cls : exn_class; exn_str : string }.

(** The outcome of a call: a returned value or a raised exception. *)
Inductive result (A : Type) : Type :=
| Ok (a : A)
| Raise (e : exn).
Arguments Ok {A} a.
Arguments Raise {A} e.

Definition bind {A B} (r : result A) (k : A → result B) : result B :=
  match r with
  | Ok a => k a
  | Raise e => Raise e
  end.

Definition returned {A} (r : result A) : Prop := ∃ a, r = Ok a.

(** The line feed character and the one-character string ["\n"]. *)
Definition LF : Ascii.ascii := Ascii.ascii_of_nat 10.
Definition nl : string := String LF "".

(** [sep.join(xs)]. *)
Definition join (sep : string) (xs : list string) : string :=
  String.concat sep xs.

(** [str(i)] for an [int]. *)
Definition str_of_int (i : Z) : string := pretty i.

(** [file.readlines()] on a text already decoded: the text is cut after
    every line feed and each line keeps its line feed. *)
Fixpoint readlines (s : string) : list string :=
  match s with
  | "" => []
  | String c rest =>
      if Ascii.eqb c LF then String c "" :: readlines rest
      else match readlines rest with
           | [] => [String c ""]
           | l :: ls => String c l :: ls
           end
  end.

(** [file.writelines(lines)]: the lines are written one after the other,
    nothing is added between them. *)
Definition writelines (lines : list string) : string :=
  String.concat "" lines.

(** How a slice bound is resolved against a list of length [len]:
    a missing bound takes its default, a negative one counts from the end,
    and both are clamped to [0, len]. *)
Definition slice_bound (len : Z) (default : Z) (i : option Z) : Z :=
  match i with
  | None => default
  | Some i => if i <? 0 then Z.max 0 (i + len) else Z.min i len
  end.

(** [l[start:stop]]. *)
Definition slice {A} (start stop : option Z) (l : list A) : list A :=
  let len := Z.of_nat (length l) in
  let lo := slice_bound len 0 start in
  let hi := slice_bound len len stop in
  take (Z.to_nat (hi - lo)) (drop (Z.to_nat lo) l).

(** [l.insert(i, x)]: in place in Python, the new list here. *)
Definition list_insert {A} (i : Z) (x : A) (l : list A) : list A :=
  let len := Z.of_nat (length l) in
  let pos := Z.to_nat (if i <? 0 then Z.max 0 (i + len) else Z.min i len) in
  take pos l ++ x :: drop pos l.

End Py.

Import Py.

Notation "'let*' x ':=' r 'in' k" := (Py.bind r (fun x => k))
  (at level 10, x binder, r at level 100, k at level 200, only parsing).

(** ** The document tools of [tools.py] *)

Module Tools.

(** The files under [WORKING_DIRECTORY], by relative path, each with the
    text a read returns.  A write stores the text it is given.  A read
    in text mode turns every carriage return, alone or before a line
    feed, into a line feed: a text that a read returned holds none, and a
    written text is read back as it was written when it holds none.  The
    properties that read back a file a tool has written are stated for
    such texts. *)
Abbreviation store := (gmap string string).

(** How [(WORKING_DIRECTORY / file_name).open("w")] ends for a name: with
    the path of the file it creates or truncates, as the key of the
    store (two names can lead to one file), or with the exception it
    raises (a missing parent directory, a directory in place of the
    file, ...). *)
Definition opener : Type := string → result string.

(** [(WORKING_DIRECTORY / file_name).open("r")] followed by
    [file.readlines()], on a text without carriage return. *)
Definition open_readlines (fs : store) (file_name : string)
  : result (list string) :=
  match fs !! file_name with
  | Some text => Ok (readlines text)
  | None => Raise (Exn FileNotFoundError file_name)
  end.

(** [read_document]: an explicit [start] is overwritten with 0 before the
    slice is taken. *)
Definition read_document (fs : store) (file_name : string)
    (start end_ : option Z) : result string :=
  let* lines := open_readlines fs file_name in
  let start := match start with
               | Some _ => Some 0
               | None => None
               end in
  Ok (join nl (slice start end_ lines)).

(** [write_document]: nothing is written when the open raises. *)
Definition write_document (open_w : opener) (fs : store)
    (content file_name : string) : result string * store :=
  match open_w file_name with
  | Raise e => (Raise e, fs)
  | Ok path =>
      (Ok ("Document saved to " +:+ file_name), <[path := content]> fs)
  end.

(** One line of [create_outline]'s loop: [f"{i + 1}. {point}\n"]. *)
Definition outline_line (i : nat) (point : string) : string :=
  str_of_int (Z.of_nat i + 1) +:+ ". " +:+ point +:+ nl.

(** [create_outline]: the file is opened first, then one line is
    written per point. *)
Definition create_outline (open_w : opener) (fs : store)
    (points : list string) (file_name : string) : result string * store :=
  match open_w file_name with
  | Raise e => (Raise e, fs)
  | Ok path =>
      (Ok ("Outline saved to " +:+ file_name),
       <[path := writelines (imap outline_line points)]> fs)
  end.

(** The order of [sorted(inserts.items())].  The items are pairs compared
    first by key; the keys of a dict are distinct, so the comparison never
    reaches the texts. *)
Definition key_le (a b : Z * string) : Prop := a.1 ≤ b.1.

#[global] Instance key_le_dec a b : Decision (key_le a b).
Proof. unfold key_le. apply _. Defined.

Definition sorted_inserts (inserts : gmap Z string) : list (Z * string) :=
  merge_sort key_le (map_to_list inserts).

Definition out_of_range_msg (line_number : Z) : string :=
  "Error: Line number " +:+ str_of_int line_number +:+ " is out of range.".

(** The [for] loop of [edit_document]: the lines after all insertions, or
    the message of the early [return]. *)
Fixpoint insert_loop (ins : list (Z * string)) (lines : list string)
  : string + list string :=
  match ins with
  | [] => inr lines
  | (line_number, text) :: rest =>
      if bool_decide (1 ≤ line_number ≤ Z.of_nat (length lines) + 1)
      then insert_loop rest (list_insert (line_number - 1) (text +:+ nl) lines)
      else inl (out_of_range_msg line_number)
  end.

Definition edited_msg (file_name : string) : string :=
  "Document edited and saved to " +:+ file_name.

(** [edit_document]: the file is written only after the loop has run to
    its end. *)
Definition edit_document (fs : store) (file_name : string)
    (inserts : gmap Z string) : result string * store :=
  match open_readlines fs file_name with
  | Raise e => (Raise e, fs)
  | Ok lines =>
      match insert_loop (sorted_inserts inserts) lines with
      | inl err => (Ok err, fs)
      | inr lines' =>
          (Ok (edited_msg file_name), <[file_name := writelines lines']> fs)
      end
  end.

(** *** Tools that call an external service *)

(** What [json.loads] can return. *)
Inductive json : Type :=
| JNull
| JBool (b : bool)
| JNum (n : Z)
| JStr (s : string)
| JList (items : list json)
| JObj (members : list (string * json)).

(** A loaded page: [doc.metadata.get("title")] and [doc.page_content]. *)
Record Document : Type := { title : option string; page_content : string }.

(** The services behind the tools.  Each field is what the named call
    does in one world: the value it returns or the exception it raises. *)
Record World : Type := {
  (** [GoogleSearchAPIWrapper().run(query)] *)
  search_run : string → result string;
  (** [json.loads(s)] *)
  json_loads : string → result json;
  (** [WebBaseLoader(urls).load()] *)
  web_load : list json → result (list Document);
  (** [webdriver.Chrome(...)] with the two [execute_*] calls after it *)
  chrome_start : result unit;
  (** [driver.get(url)], the text typed into the page (if any) and the
      click, [wait.until(...)] with the timeout on the element at the
      XPath, and [.text] of that element *)
  chrome_read : string → option string → Z → string → result string;
  (** [driver.quit()] *)
  chrome_quit : result unit;
  (** [deepl.Translator(os.environ[...]).translate_text(text, target_lang)],
      [.text] of the result *)
  deepl_translate_text : string → string → result string;
}.

(** The names bound at module level in [tools.py]: its [import]
    statements, with the public names [from auth import *] brings. *)
Definition tools_globals : list string :=
  [ "time"; "deepl";
    "os"; "Path"; "TypedDict"; "TemporaryDirectory"; "WORKING_DIRECTORY";
    "reference_links";
    "Annotated"; "List"; "Dict"; "Optional"; "Union";
    "tool"; "Document"; "WebBaseLoader";
    "GoogleSearchAPIWrapper"; "GoogleTranslateTransformer";
    "webdriver"; "By"; "Service"; "Options"; "WebDriverWait"; "EC";
    "ChromeDriverManager" ].

(** Evaluating a global name inside a tool body. *)
Definition global_name (name : string) : result unit :=
  if bool_decide (name ∈ tools_globals) then Ok ()
  else Raise (Exn NameError name).

(** [google_search]. *)
Definition google_search (w : World) (query : string) : result string :=
  search_run w query.

(** The double quote character, as a string. *)
Definition dq : string := String (Ascii.ascii_of_nat 34) "".

(** [f'<Document name="{title}">\n{page_content}\n</Document>'] *)
Definition format_document (doc : Document) : string :=
  "<Document name=" +:+ dq +:+ default "" (title doc) +:+ dq +:+ ">" +:+ nl
  +:+ page_content doc +:+ nl +:+ "</Document>".

Definition format_documents (docs : list Document) : string :=
  join (nl +:+ nl) (format_document <$> docs).

(** The argument of [scrape_webpages]: [Union[List[str], str]]. *)
Inductive urls_arg : Type :=
| UrlStr (s : string)
| UrlList (l : list string).

Definition not_a_list_msg : string :=
  "URLs must be a list of strings or a JSON string representing a list of URLs".

(** [scrape_webpages].  A string argument goes through [json.loads], and
    the name [json] is looked up first; a decoding error makes the string
    a one-element list.  Nothing catches what the loader raises. *)
Definition scrape_webpages (w : World) (urls : urls_arg) : result string :=
  let* urls := match urls with
         | UrlStr s =>
             let* _ := global_name "json" in
             match json_loads w s with
             | Ok v => Ok v
             | Raise e =>
                 match exn_cls e with
                 | JSONDecodeError => Ok (JList [JStr s])
                 | _ => Raise e
                 end
             end
         | UrlList l => Ok (JList (JStr <$> l))
         end in
  match urls with
  | JList l => let* docs := web_load w l in Ok (format_documents docs)
  | _ => Raise (Exn ValueError not_a_list_msg)
  end.

(** [scrape_references]. *)
Definition scrape_references (w : World) (urls : list string)
  : result string :=
  let* docs := web_load w (JStr <$> urls) in Ok (format_documents docs).

(** [try: ... return ok(text) except Exception as e: return err + str(e)] *)
Definition try_except (ok_prefix err_prefix : string) (r : result string)
  : string :=
  match r with
  | Ok text => ok_prefix +:+ text
  | Raise e => err_prefix +:+ exn_str e
  end.

(** [finally: driver.quit()] around a block that returns [s]: what
    [quit] raises replaces the return. *)
Definition finally_quit (w : World) (s : string) : result string :=
  let* _ := chrome_quit w in Ok s.

Definition ai_ok : string := "Text is AI-generated on ".
Definition ai_err : string :=
  "An error occurred during AI generation assessment: ".

(** [quillbot_detect_ai_content]: the driver is started before the
    [try]. *)
Definition quillbot_detect_ai_content (w : World) (text : string)
    (timeout : Z) : result string :=
  let* _ := chrome_start w in
  finally_quit w
    (try_except ai_ok ai_err
       (chrome_read w "https://quillbot.com/ai-content-detector" (Some text)
          timeout
          "//div[@data-testid='aidr-ai-score-percentage']")).

(** [gptzero_detect_ai_content]: as above, without the [finally]. *)
Definition gptzero_detect_ai_content (w : World) (text : string)
    (timeout : Z) : result string :=
  let* _ := chrome_start w in
  Ok (try_except ai_ok ai_err
        (chrome_read w "https://gptzero.me" (Some text) timeout
           "//h1[@id='ai-scan-results-ai-percentage']")).

(** [deepl_translate]: the whole body is inside the [try]. *)
Definition deepl_translate (w : World) (text : string) : result string :=
  Ok (try_except ai_ok "An error occurred during translation with deepl: "
        (deepl_translate_text w text "RU")).

Definition translate_url (text : string) : string :=
  "https://translate.google.com.my/?sl=" +:+ "en" +:+ "&tl=" +:+ "ru"
  +:+ "&text=" +:+ text +:+ "&op=translate".

(** [google_translate]: the driver is started before the [try], and
    [driver.quit()] runs in the [finally]. *)
Definition google_translate (w : World) (text : string) (timeout : Z)
  : result string :=
  let* _ := chrome_start w in
  finally_quit w
    (try_except "Translated text: "
       "An error occurred during translation with google: "
       (chrome_read w (translate_url text) None timeout
          "//span[@class='HwtZe']")).

End Tools.

Import Tools.

(** ** Graph state: values, schemas and reducers *)

Module GraphState.

(** A message: [HumanMessage(content=..., name=...)]. *)
Record Message : Type := HumanMessage { content : string; name : option string }.

(** The values a state field holds. *)
Inductive value : Type :=
| VStr (s : string)
| VMsg (m : Message)
| VList (items : list value).

(** A state, and a partial update of it, is a dict from field names. *)
Abbreviation State := (gmap string value).

(** The declared type of a field. *)
Inductive ftype : Type :=
| TStr
| TBaseMessage
| TList (elem : ftype).

(** A field of a [TypedDict] schema: its name, its type, and the reducer
    of its [Annotated[...]] when it has one. *)
Inductive reducer : Type := OperatorAdd.
Record field : Type := Field {
  f_name : string;
  f_type : ftype;
  f_reducer : option reducer;
}.
Definition schema : Type := list field.

(** [operator.add]: concatenation on two lists and on two strings, a
    [TypeError] on anything else. *)
Definition operator_add (a b : value) : result value :=
  match a, b with
  | VList x, VList y => Ok (VList (x ++ y))
  | VStr x, VStr y => Ok (VStr (x +:+ y))
  | _, _ => Raise (Exn TypeError "unsupported operand type(s) for +")
  end.

Definition reducer_of (sch : schema) (key : string) : option reducer :=
  f ← find (λ f, bool_decide (f_name f = key)) sch; f_reducer f.

(** Modelled from the spec: the engine's merge of one field of a partial
    update (the engine is a library, not part of the sources).  A field
    with a declared reducer combines the old value with the new one, a
    field without one is replaced wholesale; a field not yet set takes
    the new value. *)
Definition merge_field (sch : schema) (st : State) (key : string)
    (v : value) : result State :=
  match reducer_of sch key, st !! key with
  | Some OperatorAdd, Some old =>
      let* new := operator_add old v in Ok (<[key := new]> st)
  | _, _ => Ok (<[key := v]> st)
  end.

(** Modelled from the spec: the merge of a partial update, given as the
    list of its items, field after field. *)
Fixpoint merge_items (sch : schema) (st : State)
    (upd : list (string * value)) : result State :=
  match upd with
  | [] => Ok st
  | (key, v) :: rest =>
      let* st' := merge_field sch st key v in merge_items sch st' rest
  end.

(** Modelled from the spec: the merge of a partial update into the
    state, each field through its reducer.  The fields of an update are
    distinct, so the order in which they are taken does not matter. *)
Definition merge (sch : schema) (st upd : State) : result State :=
  merge_items sch st (map_to_list upd).

(** Modelled from the spec: replaying an ordered sequence of partial
    updates against an initial state. *)
Fixpoint replay (sch : schema) (st : State) (upds : list State)
  : result State :=
  match upds with
  | [] => Ok st
  | u :: rest => let* st' := merge sch st u in replay sch st' rest
  end.

End GraphState.

Import GraphState.

(** ** The graph builder, the compiler and the executor

    [StateGraph], its [add_*] methods, [compile] and the run of a compiled
    graph belong to the graph library that [agents.py] imports through
    [utilities]; none of it is among the sources.  This module models
    them from the design document of the engine. *)

Module Engine.

(** The two sentinels of the graph library. *)
Definition START : string := "__start__".
Definition END : string := "__end__".

(** What a node runs: from the accumulated state to a partial update. *)
Definition node_fn : Type := State → result State.

(** A conditional edge: its source, its routing function and its mapping
    from routing keys to destinations. *)
Record branch : Type := Branch {
  b_source : string;
  b_router : State → result value;
  b_mapping : list (string * string);
}.

(** Modelled from the spec: a graph under construction,
    [StateGraph(schema)] and what the [add_*] calls have registered so
    far, in call order. *)
Record StateGraph : Type := {
  sg_schema : schema;
  sg_nodes : list (string * node_fn);
  sg_edges : list (string * string);
  sg_branches : list branch;
}.

(** Modelled from the spec: the registration operations.  Each adds its
    argument to the graph and checks nothing; the checks are those of
    [compile]. *)
Definition new_graph (sch : schema) : StateGraph :=
  {| sg_schema := sch; sg_nodes := []; sg_edges := []; sg_branches := [] |}.

Definition add_node (name : string) (fn : node_fn) (g : StateGraph)
  : StateGraph :=
  {| sg_schema := sg_schema g; sg_nodes := sg_nodes g ++ [(name, fn)];
     sg_edges := sg_edges g; sg_branches := sg_branches g |}.

Definition add_edge (src dst : string) (g : StateGraph) : StateGraph :=
  {| sg_schema := sg_schema g; sg_nodes := sg_nodes g;
     sg_edges := sg_edges g ++ [(src, dst)]; sg_branches := sg_branches g |}.

Definition add_conditional_edges (src : string)
    (router : State → result value) (mapping : list (string * string))
    (g : StateGraph) : StateGraph :=
  {| sg_schema := sg_schema g; sg_nodes := sg_nodes g;
     sg_edges := sg_edges g;
     sg_branches := sg_branches g ++ [Branch src router mapping] |}.

(** [graph.nodes]: the registered names. *)
Definition nodes (g : StateGraph) : list string := (sg_nodes g).*1.

(** *** Compilation *)

Inductive CompileError : Type :=
| DuplicateNode (name : string)
| MissingEntry
| DuplicateEntry
| DanglingEdge (src dst : string).

(** A compiled graph: the frozen declaration and its entry node. *)
Record CompiledGraph : Type := {
  cg_graph : StateGraph;
  cg_entry : string;
}.

(** A destination resolves when it is a registered node or [END]. *)
Definition resolves (g : StateGraph) (dst : string) : Prop :=
  dst ∈ nodes g ∨ dst = END.

#[global] Instance resolves_dec g dst : Decision (resolves g dst).
Proof. unfold resolves. apply _. Defined.

(** Every (source, destination) pair of the graph: the unconditional
    edges, then each mapping entry of each conditional edge. *)
Definition destinations (g : StateGraph) : list (string * string) :=
  sg_edges g
  ++ mjoin ((λ b, (λ kv, (b_source b, kv.2)) <$> b_mapping b)
            <$> sg_branches g).

(** The first name that occurs again later in the list. *)
Fixpoint first_duplicate (names : list string) : option string :=
  match names with
  | [] => None
  | n :: rest =>
      if bool_decide (n ∈ rest) then Some n else first_duplicate rest
  end.

(** The targets of the edges that leave [START]. *)
Definition entry_points (g : StateGraph) : list string :=
  (filter (λ e, e.1 = START) (sg_edges g)).*2.

(** Modelled from the spec: [compile()], which is a method of the graph
    library and not part of the sources.  It enforces: node names
    unique; exactly one entry point; every edge target and every mapping
    destination a known node or the terminal sentinel. *)
Definition compile (g : StateGraph) : CompileError + CompiledGraph :=
  match first_duplicate (nodes g) with
  | Some n => inl (DuplicateNode n)
  | None =>
      match entry_points g with
      | [] => inl MissingEntry
      | [entry] =>
          match find (λ e, bool_decide (¬ resolves g e.2)) (destinations g) with
          | Some (src, dst) => inl (DanglingEdge src dst)
          | None => inr {| cg_graph := g; cg_entry := entry |}
          end
      | _ :: _ :: _ => inl DuplicateEntry
      end
  end.

(** *** Execution *)

(** The execution context of one run: the active node, the accumulated
    state, the step counter, and the snapshots emitted so far (each with
    the node that was active). *)
Record config : Type := Config {
  cur : string;
  st : State;
  counter : nat;
  emitted : list (string * State);
}.

(** The fatal errors of a run: an exception that a node or a routing
    function lets escape, a routing key absent from the mapping, and the
    step limit. *)
Inductive failure : Type :=
| Fault (e : exn)
| RoutingError (key : string)
| RecursionLimitExceeded.

(** How one hop ends: the run goes on, stops at the terminal sentinel,
    or fails. *)
Inductive hop_result : Type :=
| Continue (c : config)
| Stop (c : config)
| Fail (e : failure) (c : config).

Definition node_of (g : StateGraph) (name : string) : option node_fn :=
  snd <$> find (λ n, bool_decide (n.1 = name)) (sg_nodes g).

Definition branch_of (g : StateGraph) (name : string) : option branch :=
  find (λ b, bool_decide (b_source b = name)) (sg_branches g).

Definition edge_of (g : StateGraph) (name : string) : option string :=
  snd <$> find (λ e, bool_decide (e.1 = name)) (sg_edges g).

(** Modelled from the spec: the next node after [name], through its
    conditional edge when it has one (the routing function applied to
    the merged state, its output looked up in the mapping), through its
    unconditional edge otherwise.  An output absent from the mapping is
    a routing error. *)
Definition resolve (g : StateGraph) (name : string) (merged : State)
  : failure + string :=
  match branch_of g name with
  | Some b =>
      match b_router b merged with
      | Raise e => inl (Fault e)
      | Ok (VStr k) =>
          match find (λ kv, bool_decide (kv.1 = k)) (b_mapping b) with
          | Some (_, dst) => inr dst
          | None => inl (RoutingError k)
          end
      | Ok _ => inl (RoutingError "")
      end
  | None =>
      match edge_of g name with
      | Some dst => inr dst
      | None => inl (RoutingError name)
      end
  end.

(** Modelled from the spec: one hop up to the step-limit check.  Invoke
    the current node against the accumulated state; merge the returned
    update with the field reducers; emit the snapshot; stop if the
    current node is the terminal sentinel; otherwise resolve the next
    node against the merged state, advance, and increment the counter.
    The sentinel has nothing to invoke: its update is empty. *)
Definition advance (g : StateGraph) (c : config) : hop_result :=
  if bool_decide (cur c = END)
  then Stop (Config (cur c) (st c) (counter c)
              (emitted c ++ [(cur c, st c)]))
  else
    match node_of g (cur c) with
    | None => Fail (RoutingError (cur c)) c
    | Some fn =>
        match (let* upd := fn (st c) in merge (sg_schema g) (st c) upd) with
        | Raise e => Fail (Fault e) c
        | Ok merged =>
            let out := emitted c ++ [(cur c, merged)] in
            match resolve g (cur c) merged with
            | inl e => Fail e (Config (cur c) merged (counter c) out)
            | inr next => Continue (Config next merged (S (counter c)) out)
            end
        end
    end.

(** Modelled from the spec: a full hop, ending with the check of the
    incremented counter against the step limit. *)
Definition hop (g : StateGraph) (step_limit : nat) (c : config)
  : hop_result :=
  match advance g c with
  | Continue c' =>
      if bool_decide (step_limit < counter c')%nat
      then Fail RecursionLimitExceeded c'
      else Continue c'
  | r => r
  end.

(** How a run ends. *)
Inductive outcome : Type :=
| Finished (c : config)
| Failed (e : failure) (c : config).

(** Modelled from the spec: hop after hop until one stops or fails. *)
Fixpoint run (fuel : nat) (g : StateGraph) (step_limit : nat) (c : config)
  : option outcome :=
  match fuel with
  | O => None
  | S fuel =>
      match hop g step_limit c with
      | Continue c' => run fuel g step_limit c'
      | Stop c' => Some (Finished c')
      | Fail e c' => Some (Failed e c')
      end
  end.

(** Modelled from the spec: a run starts at the entry node with nothing
    emitted.  The counter is the number of the hop about to run, so it
    starts at 1: with a step limit of 2 the counter exceeds the limit
    once the 2nd hop has gone on, which is where scenario 3 of the spec
    has the error. *)
Definition initial (cg : CompiledGraph) (initial_state : State) : config :=
  Config (cg_entry cg) initial_state 1 [].

(** Modelled from the spec: [execute(graph, initial_state, step_limit)].
    The error is never later than the moment the counter exceeds the
    limit: a run whose first hop is already beyond it (a limit of 0)
    fails before any node is invoked.  Otherwise the run makes fewer than
    [step_limit] hops that go on and one that ends it, which bounds the
    recursion. *)
Definition execute (cg : CompiledGraph) (initial_state : State)
    (step_limit : nat) : option outcome :=
  let c0 := initial cg initial_state in
  if bool_decide (step_limit < counter c0)%nat
  then Some (Failed RecursionLimitExceeded c0)
  else run (S step_limit) (cg_graph cg) step_limit c0.

(** [n] hops in a row without the step-limit check, when all go on. *)
Fixpoint advances (n : nat) (g : StateGraph) (c : config) : option config :=
  match n with
  | O => Some c
  | S n =>
      match advance g c with
      | Continue c' => advances n g c'
      | _ => None
      end
  end.

(** The exception a failed run raises in its caller. *)
Definition raised (e : failure) : exn :=
  match e with
  | Fault e => e
  | RoutingError key => Exn GraphRoutingError key
  | RecursionLimitExceeded => Exn GraphRecursionError ""
  end.

(** Modelled from the spec: a compiled graph used as a runnable.
    [chain.invoke(state)] drives the graph to its terminal snapshot and
    returns that state; a failed run raises. *)
Definition invoke (cg : CompiledGraph) (step_limit : nat) (input : State)
  : result State :=
  match execute cg input step_limit with
  | Some (Finished c) => Ok (st c)
  | Some (Failed e _) => Raise (raised e)
  | None => Raise (raised RecursionLimitExceeded)
  end.

End Engine.

Import Engine.

(** ** [agents.py]: schemas, teams and the top-level graph *)

Module Agents.

(** The tools handed to [create_agent]. *)
Inductive tool : Type :=
| google_search_tool
| scrape_webpages_tool
| scrape_references_tool
| google_translate_tool
| write_document_tool
| edit_document_tool
| read_document_tool
| create_outline_tool.

(** What [agents.py] takes from [utilities], whose functions wrap the
    language model: they are parameters of everything below. *)
Record Utilities : Type := {
  (** [create_agent(llm, tools, system_prompt)]: a runnable agent *)
  create_agent : list tool → string → node_fn;
  (** [agent_node(state, agent, name)] *)
  agent_node : State → node_fn → string → result State;
  (** [create_team_supervisor(llm, system_prompt, members)] *)
  create_team_supervisor : string → list string → node_fn;
}.

(** [f | g] on runnables. *)
Definition pipe {A B C} (f : A → result B) (g : B → result C)
  : A → result C :=
  λ x, let* y := f x in g y.

(** A graph that failed to compile leaves nothing to invoke. *)
Definition invoke_compiled (c : CompileError + CompiledGraph)
    (step_limit : nat) (input : State) : result State :=
  match c with
  | inr cg => invoke cg step_limit input
  | inl _ => Raise (Exn ValueError "graph did not compile")
  end.

(** [lambda x: x["next"]] *)
Definition route_next (x : State) : result value :=
  match x !! "next" with
  | Some v => Ok v
  | None => Raise (Exn KeyError "next")
  end.

Definition messages_field : field :=
  Field "messages" (TList TBaseMessage) (Some OperatorAdd).

Definition GenerationTeamState : schema :=
  [ messages_field;
    Field "team_members" (TList TStr) None;
    Field "next" TStr None ].

Definition DocWritingState : schema :=
  [ messages_field;
    Field "team_members" TStr None;
    Field "next" TStr None;
    Field "current_files" TStr None ].

Definition State_schema : schema :=
  [ messages_field;
    Field "next" TStr None ].

(** *** The research team *)

Module Research.

Definition search_agent (u : Utilities) : node_fn :=
  create_agent u [google_search_tool]
    "You are a research assistant who can search for up-to-date info using the google search engine.".
Definition search_node (u : Utilities) : node_fn :=
  λ state, agent_node u state (search_agent u) "Search".

Definition research_agent (u : Utilities) : node_fn :=
  create_agent u [scrape_webpages_tool]
    "You are a research assistant who can scrape specified urls for more detailed information using the scrape_webpages function.".
Definition research_node (u : Utilities) : node_fn :=
  λ state, agent_node u state (research_agent u) "WebScraper".

Definition references_agent (u : Utilities) : node_fn :=
  create_agent u [scrape_references_tool]
    "You are an agent focused on scraping predefined reference links using the scrape_webpages function.".
Definition references_node (u : Utilities) : node_fn :=
  λ state, agent_node u state (references_agent u) "ReferencesScraper".

Definition translate_agent (u : Utilities) : node_fn :=
  create_agent u [google_translate_tool]
    "You are a research assistant who can translate text from english to russian.".
Definition translate_node (u : Utilities) : node_fn :=
  λ state, agent_node u state (translate_agent u) "Translator".

Definition supervisor_agent (u : Utilities) : node_fn :=
  create_team_supervisor u
    ("You are a supervisor tasked with managing a conversation between the"
     +:+ " following workers: WebScraper, ReferencesScraper, Translator "
     +:+ " Given the following user request, respond with the worker to act next. "
     +:+ " Each worker will perform a task and respond with their results and status. When finished,"
     +:+ " respond with FINISH.")
    ["WebScraper"; "ReferencesScraper"; "Translator"; "Search"].

Definition research_graph (u : Utilities) : StateGraph :=
  add_edge START "supervisor"
  (add_conditional_edges "supervisor" route_next
     [ ("WebScraper", "WebScraper");
       ("Search", "Search");
       ("ReferencesScraper", "ReferencesScraper");
       ("Translator", "Translator");
       ("FINISH", END) ]
  (add_edge "Translator" "supervisor"
  (add_edge "ReferencesScraper" "supervisor"
  (add_edge "Search" "supervisor"
  (add_edge "WebScraper" "supervisor"
  (add_node "supervisor" (supervisor_agent u)
  (add_node "Translator" (translate_node u)
  (add_node "ReferencesScraper" (references_node u)
  (add_node "Search" (search_node u)
  (add_node "WebScraper" (research_node u)
  (new_graph GenerationTeamState))))))))))).

Definition chain (u : Utilities) : CompileError + CompiledGraph :=
  compile (research_graph u).

Definition enter_chain (message : string) : result State :=
  Ok {[ "messages" := VList [VMsg (HumanMessage message None)] ]}.

(** [research_chain = enter_chain | chain], run under [step_limit]. *)
Definition research_chain (u : Utilities) (step_limit : nat)
  : string → result State :=
  pipe enter_chain (invoke_compiled (chain u) step_limit).

End Research.

(** *** The document writing team *)

(** [WORKING_DIRECTORY] as the hook finds it: absent, or present with
    what the listing comprehension over [rglob] evaluates to. *)
Inductive working_directory : Type :=
| Absent
| Present (listing : result (list string)).

(** [if not WORKING_DIRECTORY.exists(): WORKING_DIRECTORY.mkdir()] *)
Definition ensure_directory (wd : working_directory) : working_directory :=
  match wd with
  | Absent => Present (Ok [])
  | Present listing => Present listing
  end.

(** The [try] block: [written_files] keeps its [[]] when the listing
    raises. *)
Definition written_files (wd : working_directory) : list string :=
  match ensure_directory wd with
  | Present (Ok files) => files
  | _ => []
  end.

Definition files_header : string :=
  nl +:+ "Below are files your team has written to the directory:" +:+ nl.

Definition prelude (wd : working_directory) (state : State) : State :=
  match written_files wd with
  | [] => <["current_files" := VStr "No files written."]> state
  | files =>
      <["current_files" :=
          VStr (files_header +:+ join nl ((λ f, " - " +:+ f) <$> files))]>
        state
  end.

Module Authoring.

Definition doc_writer_agent (u : Utilities) : node_fn :=
  create_agent u [write_document_tool; edit_document_tool; read_document_tool]
    ("You are an expert writing a research document." +:+ nl
     +:+ "Below are files currently in your directory:" +:+ nl
     +:+ "{current_files}").
Definition context_aware_doc_writer_agent (u : Utilities)
    (wd : working_directory) : node_fn :=
  pipe (λ state, Ok (prelude wd state)) (doc_writer_agent u).
Definition doc_writing_node (u : Utilities) (wd : working_directory)
  : node_fn :=
  λ state, agent_node u state (context_aware_doc_writer_agent u wd) "DocWriter".

Definition note_taking_agent (u : Utilities) : node_fn :=
  create_agent u [create_outline_tool; read_document_tool]
    ("You are an expert senior researcher tasked with writing a paper outline and"
     +:+ " taking notes to craft a perfect paper.{current_files}").
Definition context_aware_note_taking_agent (u : Utilities)
    (wd : working_directory) : node_fn :=
  pipe (λ state, Ok (prelude wd state)) (note_taking_agent u).
Definition note_taking_node (u : Utilities) (wd : working_directory)
  : node_fn :=
  λ state, agent_node u state (context_aware_note_taking_agent u wd) "NoteTaker".

Definition doc_writing_supervisor (u : Utilities) : node_fn :=
  create_team_supervisor u
    ("You are a supervisor tasked with managing a conversation between the"
     +:+ " following workers:  {team_members}. Given the following user request,"
     +:+ " respond with the worker to act next. Each worker will perform a"
     +:+ " task and respond with their results and status. When finished,"
     +:+ " respond with FINISH.")
    ["DocWriter"; "NoteTaker"].

Definition authoring_graph (u : Utilities) (wd : working_directory)
  : StateGraph :=
  add_edge START "supervisor"
  (add_conditional_edges "supervisor" route_next
     [ ("DocWriter", "DocWriter");
       ("NoteTaker", "NoteTaker");
       ("FINISH", END) ]
  (add_edge "NoteTaker" "supervisor"
  (add_edge "DocWriter" "supervisor"
  (add_node "supervisor" (doc_writing_supervisor u)
  (add_node "NoteTaker" (note_taking_node u wd)
  (add_node "DocWriter" (doc_writing_node u wd)
  (new_graph DocWritingState))))))).

Definition chain (u : Utilities) (wd : working_directory)
  : CompileError + CompiledGraph :=
  compile (authoring_graph u wd).

Definition enter_chain (message : string) (members : list string)
  : result State :=
  Ok {[ "messages" := VList [VMsg (HumanMessage message None)];
        "team_members" := VStr (join ", " members) ]}.

(** [functools.partial(enter_chain, members=authoring_graph.nodes)
    | authoring_graph.compile()], run under [step_limit]. *)
Definition authoring_chain (u : Utilities) (wd : working_directory)
    (step_limit : nat) : string → result State :=
  pipe (λ message, enter_chain message (nodes (authoring_graph u wd)))
       (invoke_compiled (compile (authoring_graph u wd)) step_limit).

End Authoring.

(** *** The top-level graph *)

Definition supervisor_node (u : Utilities) : node_fn :=
  create_team_supervisor u
    ("You are a supervisor tasked with managing a conversation between the"
     +:+ " following teams: {team_members}. Given the following user request,"
     +:+ " respond with the worker to act next. Each worker will perform a"
     +:+ " task and respond with their results and status. When finished,"
     +:+ " respond with FINISH.")
    ["ResearchTeam"; "PaperWritingTeam"].

(** [x[-1]] on a state value. *)
Definition last_item (x : value) : result value :=
  match x with
  | VList items =>
      match last items with
      | Some v => Ok v
      | None => Raise (Exn IndexError "list index out of range")
      end
  | VStr s =>
      match last (String.list_ascii_of_string s) with
      | Some c => Ok (VStr (String c ""))
      | None => Raise (Exn IndexError "string index out of range")
      end
  | VMsg _ => Raise (Exn TypeError "object is not subscriptable")
  end.

(** [state["messages"]] *)
Definition get_messages (state : State) : result value :=
  match state !! "messages" with
  | Some v => Ok v
  | None => Raise (Exn KeyError "messages")
  end.

Definition get_last_message (state : State) : result string :=
  let* msgs := get_messages state in
  let* m := last_item msgs in
  match m with
  | VMsg m => Ok (content m)
  | _ => Raise (Exn AttributeError "content")
  end.

Definition join_graph (response : State) : result State :=
  let* msgs := get_messages response in
  let* m := last_item msgs in
  Ok {[ "messages" := VList [m] ]}.

(** [get_last_message | team_chain | join_graph]: a compiled team graph
    mounted as a node. *)
Definition mount (team_chain : string → result State) : node_fn :=
  pipe (pipe get_last_message team_chain) join_graph.

(** The graph before [super_graph = super_graph.compile()] rebinds the
    name.  [inner_limit] is the step limit in force inside a team. *)
Definition super_graph (u : Utilities) (wd : working_directory)
    (inner_limit : nat) : StateGraph :=
  add_edge START "supervisor"
  (add_conditional_edges "supervisor" route_next
     [ ("PaperWritingTeam", "PaperWritingTeam");
       ("ResearchTeam", "ResearchTeam");
       ("FINISH", END) ]
  (add_edge "PaperWritingTeam" "supervisor"
  (add_edge "ResearchTeam" "supervisor"
  (add_node "supervisor" (supervisor_node u)
  (add_node "PaperWritingTeam"
     (mount (Authoring.authoring_chain u wd inner_limit))
  (add_node "ResearchTeam" (mount (Research.research_chain u inner_limit))
  (new_graph State_schema))))))).


(** The content of the seed message. *)
Definition seed_content : string :=
  "The main goal of your group is to write a popular science paper " +:+
  "for young enterpreneurs, explaining them how they can create the" +:+
  "ir own site. Treat the paragraphs one by one separately! Do not " +:+
  "generate whole text in one run! and write them separately,\ to t" +:+
  "he current directory. After each write send the link to written " +:+
  "text. Also, use agent for references on each bullet point!  You " +:+
  "need to mention all of the ollowing paragraphs: 1) What domain i" +:+
  "s? How it works? How you can register an mail address for corpor" +:+
  "ate account?2) What is whois service? How it works?3) What is ho" +:+
  "sting? What are the differences between hosting and VDS/VPS? Whe" +:+
  "re you can host simple sites, and where â€” large projects?4) Wh" +:+
  "at is IP address?5) What is a site constructor? What is the diff" +:+
  "erences between CMS and site constructor?6) What are the differe" +:+
  "nces between cloud server and hosting? Why a lot of people use c" +:+
  "loud nowadays?7) What is SEO optimization and Targeted PR, and h" +:+
  "ow people ust it? 8) What is an internet acquiring, and how you " +:+
  "can integrate it to your site? 9) What is a DDoS, and what are t" +:+
  "he main vulnerabilities on the site? 10) What is an SSL certific" +:+
  "ate, and why are they necessary? Who gives this certificates? 11" +:+
  ") What are datacenters? Which tiers do they have? 12) What is up" +:+
  "time? Why not all of the uptimes are fair? The total length of t" +:+
  "he whole text should be ~11000 symbols. ".
Definition seed : State :=
  {[ "messages" := VList [VMsg (HumanMessage seed_content None)] ]}.



End Agents.

Import Agents.

(** ** Reference definitions and sample inputs *)

Module Reference.

(** What the docstrings of [read_document] announce: the lines from
    [start] (default 0) up to [end] (default: the last one). *)
Definition read_document_honoring_range (fs : store) (file_name : string)
    (start end_ : option Z) : result string :=
  let* lines := open_readlines fs file_name in
  Ok (join nl (slice start end_ lines)).

(** A store with one three-line document. *)
Definition three_lines : store :=
  {[ "doc.txt" := "a" +:+ nl +:+ "b" +:+ nl +:+ "c" +:+ nl ]}.

(** Strictly ascending keys. *)
Definition key_lt (a b : Z * string) : Prop := a.1 < b.1.

(** Line number [k] can be inserted at in a file of [n] lines. *)
Definition in_range (k : Z) (n : nat) : Prop := 1 ≤ k ≤ Z.of_nat n + 1.

(** In the ordered items [ins], applied to a file of [n0] lines, the
    item at position [i] is the first one out of range: the [i] items
    before it have been inserted when its turn comes. *)
Definition first_out_of_range (ins : list (Z * string)) (n0 : nat)
    (i : nat) (k : Z) : Prop :=
  (∃ t, ins !! i = Some (k, t)) ∧ ¬ in_range k (n0 + i) ∧
  ∀ j k' t', (j < i)%nat → ins !! j = Some (k', t') → in_range k' (n0 + j).

(** The call returned the out-of-range error. *)
Definition out_of_range_error (r : result string * store) : Prop :=
  ∃ k, r.1 = Ok (out_of_range_msg k).

(** A world without network: every service call raises, the browser
    driver itself starts and quits. *)
Definition connection_error : exn :=
  Exn (ExternalError "ConnectionError") "network is unreachable".

Definition offline : World :=
  {| search_run := λ _, Raise connection_error;
     json_loads := λ _, Raise (Exn JSONDecodeError "Expecting value");
     web_load := λ _, Raise connection_error;
     chrome_start := Ok ();
     chrome_read := λ _ _ _ _, Raise connection_error;
     chrome_quit := Ok ();
     deepl_translate_text := λ _ _, Raise connection_error |}.

(** The declared type of a field of a schema. *)
Definition field_type (sch : schema) (key : string) : option ftype :=
  f_type <$> find (λ f, bool_decide (f_name f = key)) sch.

(** The three [TypedDict] classes of [agents.py]. *)
Definition declared_schemas : list schema :=
  [GenerationTeamState; DocWritingState; State_schema].

(** A team run that answers with a draft and then a final message. *)
Definition sample_response (message : string) : State :=
  {[ "messages" :=
       VList [VMsg (HumanMessage message None);
              VMsg (HumanMessage "draft" (Some "Search"));
              VMsg (HumanMessage "final" (Some "Translator"))] ]}.
Definition sample_team_chain (message : string) : result State :=
  Ok (sample_response message).
Definition sample_outer : State :=
  {[ "messages" := VList [VMsg (HumanMessage "go" None)] ]}.

(** The update that appends one message. *)
Definition append_message (m : Message) : State :=
  {[ "messages" := VList [VMsg m] ]}.

(** The graphs that [agents.py] compiles. *)
Definition program_graphs (u : Utilities) (wd : working_directory)
    (inner_limit : nat) : list StateGraph :=
  [ Research.research_graph u;
    Authoring.authoring_graph u wd;
    super_graph u wd inner_limit ].




(** Utilities whose supervisor always names its first member and whose
    workers always answer. *)
Definition never_finishing : Utilities :=
  {| create_agent := λ _ _ _, Ok ∅;
     agent_node := λ _ _ name,
       Ok {[ "messages" := VList [VMsg (HumanMessage "done" (Some name))] ]};
     create_team_supervisor := λ _ members _,
       Ok {[ "next" := VStr (default "" (head members)) ]} |}.

End Reference.

Import Reference.

(** ** Lines, rosters and further sample inputs *)

Module Observed.

(** The string contains a line feed. *)
Fixpoint has_lf (s : string) : bool :=
  match s with
  | "" => false
  | String c rest => Ascii.eqb c LF || has_lf rest
  end.

(** The string contains a carriage return. *)
Fixpoint has_cr (s : string) : bool :=
  match s with
  | "" => false
  | String c rest => Ascii.eqb c (Ascii.ascii_of_nat 13) || has_cr rest
  end.

(** The string contains a line break: a line feed or a carriage return. *)
Definition has_break (s : string) : bool := has_lf s || has_cr s.

(** A store with one one-line document. *)
Definition one_line : store := {[ "t.txt" := "x" +:+ nl ]}.

(** Two insertions, the first one of a text of two lines. *)
Definition two_line_insert : gmap Z string :=
  {[ 1 := "a" +:+ nl +:+ "b"; 2 := "c" ]}.

(** An opener for which this name leads to the file of that name. *)
Definition opens_itself (open_w : opener) (file_name : string) : Prop :=
  open_w file_name = Ok file_name.

(** The opener of a working directory without sub-directories: a name
    without slash opens the file of that name, any other name fails. *)
Definition flat_directory : opener :=
  λ file_name,
    if bool_decide (Ascii.ascii_of_nat 47
                    ∈ String.list_ascii_of_string file_name)
    then Raise (Exn FileNotFoundError file_name)
    else if bool_decide (file_name ∈ [""; "."; ".."])
    then Raise (Exn (ExternalError "IsADirectoryError") file_name)
    else Ok file_name.

(** A line as [readlines] yields it when it is not the unfinished last
    one: some text without line feed, then the line feed. *)
Definition full_line (l : string) : Prop :=
  ∃ t, l = t +:+ nl ∧ has_lf t = false.

(** The text is empty or ends with a line feed. *)
Definition ends_with_lf (text : string) : Prop :=
  text = "" ∨ ∃ body, text = body +:+ nl.

(** The sum of the lengths of the strings. *)
Definition total_length (ls : list string) : nat :=
  sum_list (String.length <$> ls).

(** The line an insertion adds: [text + "\n"]. *)
Definition inserted_line (item : Z * string) : string := item.2 +:+ nl.

(** The member lists that [agents.py] hands to [create_team_supervisor]. *)
Definition research_members : list string :=
  ["WebScraper"; "ReferencesScraper"; "Translator"; "Search"].
Definition authoring_members : list string := ["DocWriter"; "NoteTaker"].
Definition team_names : list string := ["ResearchTeam"; "PaperWritingTeam"].

(** The nodes of a graph other than its supervisor. *)
Definition workers (g : StateGraph) : list string :=
  filter (λ n, n ≠ "supervisor") (nodes g).

(** The graph has one conditional edge, from the supervisor through
    [route_next], and its mapping sends every name of the roster to the
    node of that name, FINISH to [END], and nothing else. *)
Definition routes_roster (g : StateGraph) (roster : list string) : Prop :=
  ∃ mapping,
    sg_branches g = [Branch "supervisor" route_next mapping] ∧
    ∀ key dst, (key, dst) ∈ mapping ↔
      (key ∈ roster ∧ dst = key) ∨ (key = "FINISH" ∧ dst = END).

(** A world in which the browser answers but cannot be closed. *)
Definition quit_fails : World :=
  {| search_run := λ _, Ok "results";
     json_loads := λ _, Raise (Exn JSONDecodeError "Expecting value");
     web_load := λ _, Ok [];
     chrome_start := Ok ();
     chrome_read := λ _ _ _ _, Ok "privet";
     chrome_quit := Raise (Exn (ExternalError "WebDriverException") "gone");
     deepl_translate_text := λ _ _, Ok "privet" |}.

End Observed.

Import Observed.

(** * Properties *)

(** ** Python lists *)

Section py_lists.
Context {A : Type}.
Implicit Types (l : list A) (x : A).

Lemma list_insert_in_range (i : nat) x l :
  (i ≤ length l)%nat →
  list_insert (Z.of_nat i) x l = take i l ++ x :: drop i l.
Proof.
  intros Hi. unfold list_insert.
  destruct (Z.ltb_spec (Z.of_nat i) 0) as [?|_]; [lia|].
  by rewrite Z.min_l, Nat2Z.id by lia.
Qed.

Lemma list_insert_length (i : nat) x l :
  (i ≤ length l)%nat → length (list_insert (Z.of_nat i) x l) = S (length l).
Proof.
  intros Hi. rewrite list_insert_in_range by done.
  rewrite length_app, length_take. simpl. rewrite length_drop. lia.
Qed.

Lemma list_insert_lookup (i : nat) x l :
  (i ≤ length l)%nat → list_insert (Z.of_nat i) x l !! i = Some x.
Proof.
  intros Hi. rewrite list_insert_in_range by done.
  rewrite lookup_app_r by (rewrite length_take; lia).
  rewrite length_take, Nat.min_l by done. by rewrite Nat.sub_diag.
Qed.

Lemma list_insert_lookup_lt (i j : nat) x l :
  (i ≤ length l)%nat → (j < i)%nat →
  list_insert (Z.of_nat i) x l !! j = l !! j.
Proof.
  intros Hi Hj. rewrite list_insert_in_range by done.
  rewrite lookup_app_l by (rewrite length_take; lia).
  by rewrite lookup_take_lt.
Qed.

Lemma list_insert_sublist (i : nat) x l :
  (i ≤ length l)%nat → l `sublist_of` list_insert (Z.of_nat i) x l.
Proof.
  intros Hi. rewrite list_insert_in_range by done.
  rewrite <-(take_drop i l) at 1.
  apply sublist_app; [done|]. by apply sublist_cons.
Qed.

End py_lists.

(** [readlines] only cuts: gluing the lines back gives the text. *)
Lemma writelines_readlines (s : string) : writelines (readlines s) = s.
Proof.
  unfold writelines. induction s as [|c s IH]; [done|]. simpl.
  destruct (Ascii.eqb_spec c LF) as [->|_].
  - destruct (readlines s) as [|l ls] eqn:E; simpl in *; by rewrite <-IH.
  - destruct (readlines s) as [|l ls] eqn:E; simpl in *; [by rewrite <-IH|].
    rewrite <-IH. by destruct ls.
Qed.

(** ** [edit_document] *)

Section edit_document.
Implicit Types (ins : list (Z * string)) (lines : list string).

Lemma key_le_total : Total key_le.
Proof. intros a b. unfold key_le. lia. Qed.

Lemma key_le_trans : Transitive key_le.
Proof. intros a b c. unfold key_le. lia. Qed.

Lemma sorted_inserts_perm (inserts : gmap Z string) :
  sorted_inserts inserts ≡ₚ map_to_list inserts.
Proof. apply merge_sort_Permutation. Qed.

Lemma sorted_inserts_elem (inserts : gmap Z string) k t :
  (k, t) ∈ sorted_inserts inserts ↔ inserts !! k = Some t.
Proof. by rewrite sorted_inserts_perm, elem_of_map_to_list. Qed.

Lemma sorted_inserts_length (inserts : gmap Z string) :
  length (sorted_inserts inserts) = size inserts.
Proof. by rewrite sorted_inserts_perm, length_map_to_list. Qed.

(** With distinct keys, sorted by [≤] is sorted by [<]. *)
Lemma strongly_sorted_strict ins :
  NoDup ins.*1 → StronglySorted key_le ins → StronglySorted key_lt ins.
Proof.
  induction 2 as [|a ins Hs IH Hall]; [constructor|].
  apply NoDup_cons in H as [Hnotin Hnd].
  constructor; [by apply IH|].
  rewrite Forall_forall in Hall |- *. intros b Hb.
  specialize (Hall b Hb). unfold key_le, key_lt in *.
  destruct (decide (a.1 = b.1)) as [Heq|]; [|lia].
  exfalso. apply Hnotin. rewrite Heq. by apply list_elem_of_fmap_2.
Qed.

Lemma sorted_inserts_ascending (inserts : gmap Z string) :
  StronglySorted key_lt (sorted_inserts inserts).
Proof.
  apply strongly_sorted_strict.
  - rewrite sorted_inserts_perm. apply NoDup_fst_map_to_list.
  - apply StronglySorted_merge_sort; [apply key_le_trans|apply key_le_total].
Qed.

(** The loop either inserts every item, each in range at its turn, or
    returns the message of the first item that is out of range. *)
Lemma insert_loop_cases ins lines :
  (∃ lines', insert_loop ins lines = inr lines' ∧
     ∀ i k t, ins !! i = Some (k, t) → in_range k (length lines + i)) ∨
  (∃ i k, insert_loop ins lines = inl (out_of_range_msg k) ∧
     first_out_of_range ins (length lines) i k).
Proof.
  revert lines. induction ins as [|[k t] ins IH]; intros lines.
  { left. exists lines. split; [done|]. by intros i k t. }
  simpl. case_bool_decide as Hk.
  - assert (Hlen : length (list_insert (k - 1) (t +:+ nl) lines)
                   = S (length lines)).
    { replace (k - 1) with (Z.of_nat (Z.to_nat (k - 1))) by lia.
      apply list_insert_length. lia. }
    destruct (IH (list_insert (k - 1) (t +:+ nl) lines))
      as [(lines' & Hl & Hall)|(i & k' & Hl & (Hi & Hout & Hbefore))].
    + left. exists lines'. split; [done|]. intros [|i] k' t' Hi.
      * injection Hi as -> ->. unfold in_range. lia.
      * specialize (Hall i k' t' Hi). rewrite Hlen in Hall.
        unfold in_range in *. lia.
    + right. exists (S i), k'. split; [done|]. rewrite Hlen in *.
      split; [done|]. split.
      * unfold in_range in *. lia.
      * intros [|j] k'' t'' Hj Hjk.
        -- injection Hjk as -> ->. unfold in_range. lia.
        -- specialize (Hbefore j k'' t'' ltac:(lia) Hjk).
           unfold in_range in *. lia.
  - right. exists 0%nat, k. split; [done|]. split; [by exists t|].
    split; [unfold in_range; lia|]. intros; lia.
Qed.

(** Items whose keys are all above [m] leave the lines before line [m]
    where they are. *)
Lemma insert_loop_prefix ins lines lines' (m : Z) (j : nat) :
  insert_loop ins lines = inr lines' →
  Forall (λ a, m < a.1) ins → Z.of_nat j < m →
  lines' !! j = lines !! j.
Proof.
  revert lines. induction ins as [|[k t] ins IH]; intros lines Hl Hall Hj.
  { by injection Hl as ->. }
  simpl in Hl. case_bool_decide as Hk; [|done].
  apply Forall_cons in Hall as [Hm Hall]. simpl in Hm.
  rewrite (IH _ Hl Hall Hj).
  replace (k - 1) with (Z.of_nat (Z.to_nat (k - 1))) by lia.
  apply list_insert_lookup_lt; lia.
Qed.

Lemma insert_loop_sublist ins lines lines' :
  insert_loop ins lines = inr lines' → lines `sublist_of` lines'.
Proof.
  revert lines. induction ins as [|[k t] ins IH]; intros lines Hl.
  { by injection Hl as ->. }
  simpl in Hl. case_bool_decide as Hk; [|done].
  etrans; [|by apply IH].
  replace (k - 1) with (Z.of_nat (Z.to_nat (k - 1))) by lia.
  apply list_insert_sublist. lia.
Qed.

Lemma insert_loop_length ins lines lines' :
  insert_loop ins lines = inr lines' →
  length lines' = (length lines + length ins)%nat.
Proof.
  revert lines. induction ins as [|[k t] ins IH]; intros lines Hl.
  { injection Hl as ->. simpl. lia. }
  simpl in Hl. case_bool_decide as Hk; [|done].
  rewrite (IH _ Hl). simpl.
  replace (k - 1) with (Z.of_nat (Z.to_nat (k - 1))) by lia.
  rewrite list_insert_length by lia. lia.
Qed.

(** In ascending key order every inserted text ends up on the line its
    key names. *)
Lemma insert_loop_placed ins lines lines' k t :
  StronglySorted key_lt ins →
  insert_loop ins lines = inr lines' → (k, t) ∈ ins →
  lines' !! Z.to_nat (k - 1) = Some (t +:+ nl).
Proof.
  intros Hs. revert lines.
  induction Hs as [|[k0 t0] ins Hs IH Hall]; intros lines Hl Hin.
  { by apply elem_of_nil in Hin. }
  simpl in Hl. case_bool_decide as Hk; [|done].
  apply elem_of_cons in Hin as [Heq|Hin]; [|by eapply IH].
  injection Heq as -> ->.
  rewrite (insert_loop_prefix _ _ _ k0 _ Hl Hall) by lia.
  assert (Hpos : k0 - 1 = Z.of_nat (Z.to_nat (k0 - 1))) by lia.
  revert Hpos. generalize (Z.to_nat (k0 - 1)). intros i Hi. rewrite Hi.
  apply list_insert_lookup. lia.
Qed.

Lemma edited_msg_not_error file_name k :
  edited_msg file_name ≠ out_of_range_msg k.
Proof. unfold edited_msg, out_of_range_msg. simpl. discriminate. Qed.

End edit_document.

Section edit_document_contract.
Implicit Types (ins : list (Z * string)) (fs : store).

Lemma first_out_of_range_unique ins n0 i k i' k' :
  first_out_of_range ins n0 i k → first_out_of_range ins n0 i' k' →
  i = i' ∧ k = k'.
Proof.
  intros ([t Hi] & Hout & Hbefore) ([t' Hi'] & Hout' & Hbefore').
  destruct (Nat.lt_trichotomy i i') as [Hlt|[->|Hlt]].
  - destruct Hout. by eapply Hbefore'.
  - split; [done|]. congruence.
  - destruct Hout'. by eapply Hbefore.
Qed.

End edit_document_contract.

(** ** [read_document] *)

Lemma read_document_start_inert (fs : store) file_name (s : Z) end_ :
  read_document fs file_name (Some s) end_
  = read_document fs file_name (Some 0) end_.
Proof. reflexivity. Qed.

(** C4.  On the three-line document, asking for the lines from 1 to 2
    returns the lines from 0 to 2: the explicit start line is overwritten
    with 0, where honoring the range would return the second line alone. *)
Theorem read_document_resets_start :
  read_document three_lines "doc.txt" (Some 1) (Some 2)
  = Ok ("a" +:+ nl +:+ nl +:+ "b" +:+ nl) ∧
  read_document_honoring_range three_lines "doc.txt" (Some 1) (Some 2)
  = Ok ("b" +:+ nl) ∧
  ∀ fs file_name s end_,
    read_document fs file_name (Some s) end_
    = read_document_honoring_range fs file_name (Some 0) end_.
Proof. split; [|split]; reflexivity. Qed.

(** ** Failures of the external services *)

Section service_failures.
Variable w : World.

Lemma try_except_error ok_prefix err_prefix e :
  try_except ok_prefix err_prefix (Raise e) = err_prefix +:+ exn_str e.
Proof. reflexivity. Qed.

(** A tool without a handler returns what its service returns and raises
    what its service raises. *)
Lemma google_search_transparent query :
  google_search w query = search_run w query.
Proof. reflexivity. Qed.



(** [json] is not among the names of the module: a string argument never
    gets as far as the loader. *)
Lemma scrape_webpages_string s :
  scrape_webpages w (UrlStr s) = Raise (Exn NameError "json").
Proof. reflexivity. Qed.


End service_failures.



(** ** [prelude] *)

Section prelude.
Implicit Types (state : State) (files : list string).

Lemma written_files_present files :
  written_files (Present (Ok files)) = files.
Proof. reflexivity. Qed.

(** A listing that raises counts as no files at all. *)
Lemma prelude_listing_raises e state :
  prelude (Present (Raise e)) state
  = <["current_files" := VStr "No files written."]> state.
Proof. reflexivity. Qed.

(** A directory that is not there is created, empty. *)
Lemma prelude_absent state :
  prelude Absent state
  = <["current_files" := VStr "No files written."]> state.
Proof. reflexivity. Qed.



End prelude.

(** ** Reducers *)

Section reducers.
Implicit Types (sch : schema) (st upd : State) (v : value).

Lemma merge_field_inv sch st key v st1 :
  merge_field sch st key v = Ok st1 →
  ∃ x, st1 = <[key := x]> st ∧
    (reducer_of sch key = None → x = v) ∧
    (∀ old, reducer_of sch key = Some OperatorAdd → st !! key = Some old →
       operator_add old v = Ok x).
Proof.
  unfold merge_field.
  destruct (reducer_of sch key) as [[]|] eqn:Hred;
    [destruct (st !! key) as [old|] eqn:Hold|].
  - destruct (operator_add old v) as [new|e] eqn:Hadd; simpl; [|done].
    intros [= <-]. exists new. split; [done|]. split; [done|].
    by intros old' _ [= <-].
  - intros [= <-]. exists v. by repeat split.
  - intros [= <-]. exists v. repeat split. by intros old [=].
Qed.

(** What a merge does to each field: untouched when the update does not
    mention it, replaced when it has no reducer, combined with
    [operator.add] when it has one. *)
Lemma merge_items_lookup sch items st st' key :
  merge_items sch st items = Ok st' → NoDup items.*1 →
  (key ∉ items.*1 → st' !! key = st !! key) ∧
  (∀ v, (key, v) ∈ items → reducer_of sch key = None →
     st' !! key = Some v) ∧
  (∀ v old, (key, v) ∈ items → reducer_of sch key = Some OperatorAdd →
     st !! key = Some old →
     ∃ new, operator_add old v = Ok new ∧ st' !! key = Some new).
Proof.
  revert st. induction items as [|[k v] items IH]; intros st Hm Hnd.
  { injection Hm as <-. split; [done|].
    split; intros; exfalso; by eapply elem_of_nil. }
  simpl in Hm. destruct (merge_field sch st k v) as [st1|e] eqn:Hf; [|done].
  simpl in Hm. apply NoDup_cons in Hnd as [Hk Hnd].
  destruct (IH st1 Hm Hnd) as (Hout & Hrep & Hadd).
  destruct (merge_field_inv _ _ _ _ _ Hf) as (x & -> & Hx & Hx').
  split; [|split].
  - intros Hnotin. apply not_elem_of_cons in Hnotin as [Hne Hnotin].
    rewrite (Hout Hnotin). by rewrite lookup_insert_ne.
  - intros v' Hin Hred. apply elem_of_cons in Hin as [[= -> ->]|Hin].
    + rewrite (Hout Hk), lookup_insert_eq. by rewrite Hx.
    + by apply Hrep.
  - intros v' old Hin Hred Hold. apply elem_of_cons in Hin as [[= -> ->]|Hin].
    + exists x. split; [by eapply Hx'|].
      by rewrite (Hout Hk), lookup_insert_eq.
    + apply Hadd; [done..|]. rewrite lookup_insert_ne; [done|].
      intros ->. apply Hk. by apply (list_elem_of_fmap_2 fst _ (key, v')).
Qed.

Lemma merge_replaces sch st upd st' key v :
  merge sch st upd = Ok st' → reducer_of sch key = None →
  upd !! key = Some v → st' !! key = Some v.
Proof.
  intros Hm Hred Hv.
  eapply (merge_items_lookup _ _ _ _ key Hm); [|by apply elem_of_map_to_list|done].
  apply NoDup_fst_map_to_list.
Qed.

Lemma merge_frame sch st upd st' key :
  merge sch st upd = Ok st' → upd !! key = None → st' !! key = st !! key.
Proof.
  intros Hm Hnone.
  eapply (merge_items_lookup _ _ _ _ key Hm); [apply NoDup_fst_map_to_list|].
  intros ([k v] & -> & Hin)%list_elem_of_fmap_1.
  apply elem_of_map_to_list in Hin. simpl in Hnone. congruence.
Qed.

Lemma merge_singleton sch st key v :
  merge sch st {[ key := v ]}
  = let* st' := merge_field sch st key v in Ok st'.
Proof. unfold merge. by rewrite map_to_list_singleton. Qed.

Lemma declared_schemas_messages sch :
  sch ∈ declared_schemas → reducer_of sch "messages" = Some OperatorAdd.
Proof.
  unfold declared_schemas. rewrite !elem_of_cons, elem_of_nil.
  by intros [->|[->|[->|[]]]].
Qed.

Lemma declared_schemas_team_members sch :
  sch ∈ declared_schemas → reducer_of sch "team_members" = None.
Proof.
  unfold declared_schemas. rewrite !elem_of_cons, elem_of_nil.
  by intros [->|[->|[->|[]]]].
Qed.

(** Appending to a [messages] list that is there. *)
Lemma merge_append_messages sch st old new :
  sch ∈ declared_schemas → st !! "messages" = Some (VList old) →
  merge sch st {[ "messages" := VList new ]}
  = Ok (<["messages" := VList (old ++ new)]> st).
Proof.
  intros Hsch Hold. rewrite merge_singleton. unfold merge_field.
  by rewrite (declared_schemas_messages _ Hsch), Hold.
Qed.

(** C7.  In each declared schema the reducer of [messages] is
    [operator.add], list concatenation.  Replaying the two updates
    "append A" then "append B" on a state whose [messages] is empty
    gives [messages = [A, B]] and touches no other field, whatever the
    two messages and the rest of the state are; merging the two
    messages in one update gives the same state. *)
Theorem messages_reducer_appends sch st (A B : Message) :
  sch ∈ declared_schemas →
  st !! "messages" = Some (VList []) →
  reducer_of sch "messages" = Some OperatorAdd ∧
  replay sch st [append_message A; append_message B]
  = Ok (<["messages" := VList [VMsg A; VMsg B]]> st) ∧
  merge sch st {[ "messages" := VList [VMsg A; VMsg B] ]}
  = replay sch st [append_message A; append_message B].
Proof.
  intros Hsch Hst. split; [by apply declared_schemas_messages|].
  assert (Hreplay : replay sch st [append_message A; append_message B]
                    = Ok (<["messages" := VList [VMsg A; VMsg B]]> st)).
  { unfold replay, append_message.
    rewrite (merge_append_messages _ _ [] _ Hsch Hst). simpl.
    rewrite (merge_append_messages _ _ [VMsg A] _ Hsch)
      by apply lookup_insert_eq.
    simpl. by rewrite insert_insert_eq. }
  split; [done|]. rewrite Hreplay.
  by rewrite (merge_append_messages _ _ [] _ Hsch Hst).
Qed.

Lemma messages_reducer_appends_witness :
  State_schema ∈ declared_schemas ∧
  ({[ "messages" := VList [] ]} : State) !! "messages" = Some (VList []) ∧
  replay State_schema {[ "messages" := VList [] ]}
    [append_message (HumanMessage "A" None);
     append_message (HumanMessage "B" None)]
  = Ok (<["messages" := VList [VMsg (HumanMessage "A" None);
                                VMsg (HumanMessage "B" None)]]>
          {[ "messages" := VList [] ]}).
Proof.
  assert (H1 : State_schema ∈ declared_schemas)
    by (unfold declared_schemas; repeat constructor).
  assert (H2 : ({[ "messages" := VList [] ]} : State) !! "messages"
               = Some (VList [])) by reflexivity.
  split; [exact H1|]. split; [exact H2|].
  apply (messages_reducer_appends State_schema {[ "messages" := VList [] ]}
           (HumanMessage "A" None) (HumanMessage "B" None) H1 H2).
Defined.

End reducers.

(** ** The [team_members] field *)

Section team_members.

(** C10, as stated, fails: [DocWritingState] declares [team_members] as a
    single string, not as a sequence of strings. *)
Lemma team_members_not_always_a_sequence :
  field_type DocWritingState "team_members" = Some TStr ∧
  ¬ (∀ sch, sch ∈ declared_schemas →
       field_type sch "team_members" = Some (TList TStr)).
Proof.
  split; [reflexivity|]. intros Hall.
  assert (Hin : DocWritingState ∈ declared_schemas)
    by (unfold declared_schemas; repeat constructor).
  specialize (Hall _ Hin). discriminate Hall.
Qed.

(** C10, as amended.  No declared schema gives [team_members] a
    reducer, so an update that contains the field replaces its value
    wholesale.  The field is a sequence of strings in
    [GenerationTeamState] and one string in [DocWritingState], which the
    authoring [enter_chain] fills with the member names joined by ", ";
    the top-level [State] does not declare it. *)
Theorem team_members_replaced_wholesale :
  (∀ sch, sch ∈ declared_schemas → reducer_of sch "team_members" = None) ∧
  (∀ sch (st upd st' : State) v,
     sch ∈ declared_schemas → merge sch st upd = Ok st' →
     upd !! "team_members" = Some v → st' !! "team_members" = Some v) ∧
  field_type GenerationTeamState "team_members" = Some (TList TStr) ∧
  field_type DocWritingState "team_members" = Some TStr ∧
  field_type State_schema "team_members" = None ∧
  (∀ message members,
     Authoring.enter_chain message members
     = Ok {[ "messages" := VList [VMsg (HumanMessage message None)];
             "team_members" := VStr (join ", " members) ]}).
Proof.
  split; [apply declared_schemas_team_members|]. split.
  { intros sch st upd st' v Hsch Hm Hv.
    eapply merge_replaces; [done| |done].
    by apply declared_schemas_team_members. }
  by repeat split.
Qed.

(** Replacing a joined string by another one in the authoring team. *)
Lemma team_members_replaced_wholesale_witness :
  DocWritingState ∈ declared_schemas ∧
  merge DocWritingState {[ "team_members" := VStr "DocWriter, NoteTaker" ]}
    {[ "team_members" := VStr "NoteTaker" ]}
  = Ok {[ "team_members" := VStr "NoteTaker" ]} ∧
  ({[ "team_members" := VStr "NoteTaker" ]} : State) !! "team_members"
  = Some (VStr "NoteTaker").
Proof.
  assert (H1 : DocWritingState ∈ declared_schemas)
    by (unfold declared_schemas; repeat constructor).
  assert (H2 : merge DocWritingState
                 {[ "team_members" := VStr "DocWriter, NoteTaker" ]}
                 {[ "team_members" := VStr "NoteTaker" ]}
               = Ok {[ "team_members" := VStr "NoteTaker" ]}).
  { rewrite merge_singleton. unfold merge_field. simpl.
    by rewrite insert_singleton_eq. }
  split; [exact H1|]. split; [exact H2|].
  destruct team_members_replaced_wholesale as (_ & Hrep & _).
  apply (Hrep _ _ _ _ _ H1 H2). reflexivity.
Defined.

End team_members.

(** ** Mounting a team as a node *)

Section mount.
Variable team_chain : string → result State.
Implicit Types (outer resp : State) (m : Message) (r : value).

Lemma last_item_snoc (items : list value) r :
  last_item (VList (items ++ [r])) = Ok r.
Proof. unfold last_item. by rewrite last_snoc. Qed.

Lemma get_last_message_snoc outer (ms : list value) m :
  outer !! "messages" = Some (VList (ms ++ [VMsg m])) →
  get_last_message outer = Ok (content m).
Proof.
  intros Hm. unfold get_last_message, get_messages. rewrite Hm.
  cbn [Py.bind]. by rewrite last_item_snoc.
Qed.

Lemma join_graph_snoc resp (rs : list value) r :
  resp !! "messages" = Some (VList (rs ++ [r])) →
  join_graph resp = Ok {[ "messages" := VList [r] ]}.
Proof.
  intros Hm. unfold join_graph, get_messages. rewrite Hm.
  cbn [Py.bind]. by rewrite last_item_snoc.
Qed.

(** The mounted node sees of the outer state what [get_last_message]
    returns, and nothing else. *)
Lemma mount_reads_last_message_only outer outer' :
  get_last_message outer = get_last_message outer' →
  mount team_chain outer = mount team_chain outer'.
Proof. unfold mount, pipe. by intros ->. Qed.

(** C6.  A team mounted as a node hands its chain the content of the
    last message of the outer state and nothing else, and the chain of
    each team seeds the inner graph with one message of that content.
    The node returns a partial update with exactly one message, the last
    one of the inner terminal state; merged into the outer state it adds
    that one message to the transcript. *)
Theorem mount_projects_last_message outer (ms : list value) m resp
    (rs : list value) r :
  outer !! "messages" = Some (VList (ms ++ [VMsg m])) →
  team_chain (content m) = Ok resp →
  resp !! "messages" = Some (VList (rs ++ [r])) →
  get_last_message outer = Ok (content m) ∧
  mount team_chain outer = Ok {[ "messages" := VList [r] ]} ∧
  merge State_schema outer {[ "messages" := VList [r] ]}
  = Ok (<["messages" := VList (ms ++ [VMsg m] ++ [r])]> outer) ∧
  (∀ u limit message,
     Research.research_chain u limit message
     = invoke_compiled (Research.chain u) limit
         {[ "messages" := VList [VMsg (HumanMessage message None)] ]}) ∧
  (∀ u wd limit message,
     Authoring.authoring_chain u wd limit message
     = invoke_compiled (Authoring.chain u wd) limit
         {[ "messages" := VList [VMsg (HumanMessage message None)];
            "team_members" :=
              VStr (join ", " (nodes (Authoring.authoring_graph u wd))) ]}).
Proof.
  intros Houter Hchain Hresp.
  pose proof (get_last_message_snoc _ _ _ Houter) as Hlast.
  split; [done|]. split.
  { unfold mount, pipe. rewrite Hlast. simpl. rewrite Hchain. simpl.
    by eapply join_graph_snoc. }
  split.
  { rewrite (merge_append_messages _ _ (ms ++ [VMsg m]) _);
      [by rewrite <-(assoc_L (++))| |done].
    unfold declared_schemas. repeat constructor. }
  by split.
Qed.

End mount.

(** An inner run of two messages after the seed: the outer state gets the
    last one only. *)
Lemma mount_projects_last_message_witness :
  mount sample_team_chain sample_outer
  = Ok {[ "messages" := VList [VMsg (HumanMessage "final" (Some "Translator"))] ]}.
Proof.
  apply (mount_projects_last_message sample_team_chain sample_outer
           [] (HumanMessage "go" None) (sample_response "go")
           [VMsg (HumanMessage "go" None);
            VMsg (HumanMessage "draft" (Some "Search"))]
           (VMsg (HumanMessage "final" (Some "Translator"))));
    reflexivity.
Defined.

(** ** Compilation *)

Section compile.
Implicit Types (g : StateGraph) (names : list string).

Lemma first_duplicate_None names :
  first_duplicate names = None ↔ NoDup names.
Proof.
  induction names as [|n names IH]; simpl.
  { split; [constructor|done]. }
  rewrite NoDup_cons. case_bool_decide as Hin.
  - split; [done|]. by intros [? _].
  - rewrite IH. tauto.
Qed.

Lemma destinations_elem g src dst :
  (src, dst) ∈ destinations g ↔
  (src, dst) ∈ sg_edges g ∨
  ∃ b key, b ∈ sg_branches g ∧ (key, dst) ∈ b_mapping b ∧ src = b_source b.
Proof.
  unfold destinations. rewrite elem_of_app, list_elem_of_join.
  apply or_iff_compat_l. split.
  - intros (l & Hin & (b & -> & Hb)%list_elem_of_fmap).
    apply list_elem_of_fmap in Hin as ([key dst'] & [= -> ->] & Hkv).
    by exists b, key.
  - intros (b & key & Hb & Hkv & ->).
    exists ((λ kv, (b_source b, kv.2)) <$> b_mapping b). split.
    + apply list_elem_of_fmap. by exists (key, dst).
    + apply list_elem_of_fmap. by exists b.
Qed.

(** What a successful compilation has checked. *)
Lemma compile_inr g cg :
  compile g = inr cg ↔
  cg = {| cg_graph := g; cg_entry := cg_entry cg |} ∧
  NoDup (nodes g) ∧ entry_points g = [cg_entry cg] ∧
  ∀ src dst, (src, dst) ∈ destinations g → resolves g dst.
Proof.
  unfold compile.
  destruct (first_duplicate (nodes g)) as [n|] eqn:Hdup.
  { split; [done|]. intros (_ & Hnd & _).
    apply first_duplicate_None in Hnd. congruence. }
  apply first_duplicate_None in Hdup.
  destruct (entry_points g) as [|entry [|entry' rest]] eqn:Hentry;
    [by split; [|intros (_ & _ & ? & _)]| |by split; [|intros (_ & _ & ? & _)]].
  destruct (find _ (destinations g)) as [[src dst]|] eqn:Hfind.
  - split; [done|]. intros (_ & _ & _ & Hall).
    apply find_some in Hfind as [Hin Hbad].
    apply bool_decide_eq_true in Hbad. destruct Hbad.
    eapply Hall. by apply list_elem_of_In.
  - split.
    + intros [= <-]. simpl. repeat split; [done|].
      intros src dst Hin.
      destruct (decide (resolves g dst)) as [|Hbad]; [done|].
      apply list_elem_of_In in Hin. eapply (find_none _ _ Hfind) in Hin.
      by apply bool_decide_eq_false in Hin.
    + intros (-> & _ & [= <-] & _). done.
Qed.

End compile.

Section compiled_graphs.
Implicit Types (g : StateGraph) (u : Utilities) (wd : working_directory).

(** The three graphs of the program compile, each with the supervisor
    as its entry node. *)
Lemma program_graphs_compile u wd inner_limit g :
  g ∈ program_graphs u wd inner_limit →
  compile g = inr {| cg_graph := g; cg_entry := "supervisor" |}.
Proof.
  unfold program_graphs. rewrite !elem_of_cons, elem_of_nil.
  by intros [->|[->|[->|[]]]].
Qed.

(** C2.  When [compile] accepts a graph, its node names are distinct, it
    has exactly one entry point, and every unconditional-edge target and
    every destination of a conditional-edge mapping is a registered node
    or [END].  When a graph has a dangling edge target or mapping
    destination, a duplicate node name, or no entry point, [compile]
    returns a [CompileError], and nothing of the graph is run.  The
    three graphs of the program are accepted. *)
Theorem compile_resolves_every_destination g :
  (∀ cg, compile g = inr cg →
     cg_graph cg = g ∧ NoDup (nodes g) ∧ entry_points g = [cg_entry cg] ∧
     (∀ src dst, (src, dst) ∈ sg_edges g → resolves g dst) ∧
     (∀ b key dst, b ∈ sg_branches g → (key, dst) ∈ b_mapping b →
        resolves g dst)) ∧
  ((∃ src dst, (src, dst) ∈ sg_edges g ∧ ¬ resolves g dst) ∨
   (∃ b key dst, b ∈ sg_branches g ∧ (key, dst) ∈ b_mapping b ∧
      ¬ resolves g dst) ∨
   ¬ NoDup (nodes g) ∨ entry_points g = [] →
   ∃ err, compile g = inl err ∧
     ∀ step_limit input,
       ¬ returned (invoke_compiled (compile g) step_limit input)) ∧
  (∀ u wd inner_limit, g ∈ program_graphs u wd inner_limit →
     ∃ cg, compile g = inr cg).
Proof.
  split; [|split].
  - intros cg (Hcg & Hnd & Hentry & Hall)%compile_inr.
    split; [by rewrite Hcg|]. split; [done|]. split; [done|]. split.
    + intros src dst Hin. apply (Hall src). apply destinations_elem. by left.
    + intros b key dst Hb Hkv. apply (Hall (b_source b)).
      apply destinations_elem. right. by exists b, key.
  - intros Hbad. destruct (compile g) as [err|cg] eqn:Hc.
    { exists err. split; [done|]. intros step_limit input [s Hs].
      discriminate Hs. }
    exfalso. apply compile_inr in Hc as (_ & Hnd & Hentry & Hall).
    destruct Hbad as [(src & dst & Hin & Hno)
                     |[(b & key & dst & Hb & Hkv & Hno)|[Hdup|Hnone]]].
    + apply Hno, (Hall src), destinations_elem. by left.
    + apply Hno, (Hall (b_source b)), destinations_elem.
      right. by exists b, key.
    + done.
    + congruence.
  - intros u wd inner_limit Hg. eexists.
    by eapply program_graphs_compile.
Qed.

(** The research graph with one edge more, to a node nobody registered,
    is refused. *)
Lemma compile_resolves_every_destination_witness :
  ∃ err,
    compile (add_edge "Translator" "Editor"
               (Research.research_graph never_finishing)) = inl err.
Proof.
  destruct (compile_resolves_every_destination
              (add_edge "Translator" "Editor"
                 (Research.research_graph never_finishing)))
    as (_ & Hbad & _).
  destruct Hbad as (err & Herr & _); [|by exists err].
  left. exists "Translator", "Editor". split.
  - vm_compute. repeat constructor.
  - vm_compute. intros [Hin| [=]].
    repeat (apply elem_of_cons in Hin as [[=]|Hin]).
    by apply elem_of_nil in Hin.
Defined.

End compiled_graphs.

(** ** Execution *)

Section execution.
Variable g : StateGraph.
Implicit Types (c : config) (e : failure).

(** A hop that goes on has run a registered node, resolved its way out
    against the merged state, and counted one step. *)
Lemma advance_continue c c' :
  advance g c = Continue c' →
  cur c ≠ END ∧ cur c ∈ nodes g ∧
  resolve g (cur c) (st c') = inr (cur c') ∧
  counter c' = S (counter c) ∧
  emitted c' = emitted c ++ [(cur c, st c')].
Proof.
  unfold advance. case_bool_decide as Hend; [done|].
  destruct (node_of g (cur c)) as [fn|] eqn:Hnode; [|done].
  destruct (let* upd := fn (st c) in merge (sg_schema g) (st c) upd)
    as [merged|e]; [|done].
  destruct (resolve g (cur c) merged) as [e|next] eqn:Hres; [done|].
  intros [= <-]. simpl. split; [done|]. split.
  - unfold node_of in Hnode.
    destruct (find _ (sg_nodes g)) as [[n fn']|] eqn:Hfind; [|done].
    apply find_some in Hfind as [Hin Hn].
    apply bool_decide_eq_true in Hn. simpl in Hn. subst n.
    apply list_elem_of_In in Hin.
    by apply (list_elem_of_fmap_2 fst _ (cur c, fn')).
  - done.
Qed.



Lemma hop_continue step_limit c c' :
  hop g step_limit c = Continue c' ↔
  advance g c = Continue c' ∧ (counter c' ≤ step_limit)%nat.
Proof.
  unfold hop.
  destruct (advance g c) as [c1|c1|e c1];
    [|split; [done|by intros [[=] _]]..].
  case_bool_decide; [split; [done|]|split].
  - intros [[= ->] ?]. lia.
  - intros [= ->]. split; [done|lia].
  - by intros [[= ->] _].
Qed.

Lemma advances_counter n c c' :
  advances n g c = Some c' → counter c' = (counter c + n)%nat.
Proof.
  revert c. induction n as [|n IH]; intros c; simpl.
  { intros [= <-]. lia. }
  destruct (advance g c) as [c1| |] eqn:Hadv; [|done..].
  intros Hrest. rewrite (IH _ Hrest).
  apply advance_continue in Hadv as (_ & _ & _ & -> & _). lia.
Qed.



End execution.

(** ** The star topology of the program's graphs *)

Section star.
Variables (u : Utilities) (wd : working_directory) (inner_limit : nat).
Implicit Types (g : StateGraph) (c : config).

(** In each graph of the program a node other than the supervisor has
    no conditional edge and one unconditional edge, to the supervisor. *)
Lemma worker_edges g w :
  g ∈ program_graphs u wd inner_limit →
  w ∈ nodes g → w ≠ "supervisor" →
  branch_of g w = None ∧
  filter (λ e, e.1 = w) (sg_edges g) = [(w, "supervisor")].
Proof.
  unfold program_graphs. rewrite !elem_of_cons, elem_of_nil.
  intros [->|[->|[->|[]]]] Hw Hne; vm_compute in Hw;
    repeat (apply elem_of_cons in Hw as [->|Hw]; [try done|]);
    by apply elem_of_nil in Hw.
Qed.

Lemma worker_resolves g w (merged : State) :
  g ∈ program_graphs u wd inner_limit →
  w ∈ nodes g → w ≠ "supervisor" →
  resolve g w merged = inr "supervisor".
Proof.
  unfold program_graphs. rewrite !elem_of_cons, elem_of_nil.
  intros [->|[->|[->|[]]]] Hw Hne; vm_compute in Hw;
    repeat (apply elem_of_cons in Hw as [->|Hw]; [try done|]);
    by apply elem_of_nil in Hw.
Qed.

(** C8.  In every graph the program compiles, the only outgoing edge of
    a worker node goes to the supervisor.  So a hop of a worker that
    goes on hands control to the supervisor, and of two hops in a row at
    least one is the supervisor's. *)
Theorem workers_return_to_supervisor g :
  g ∈ program_graphs u wd inner_limit →
  (∀ w, w ∈ nodes g → w ≠ "supervisor" →
     branch_of g w = None ∧
     filter (λ e, e.1 = w) (sg_edges g) = [(w, "supervisor")]) ∧
  (∀ step_limit c c',
     cur c ≠ "supervisor" → hop g step_limit c = Continue c' →
     cur c' = "supervisor") ∧
  (∀ step_limit c c' c'',
     hop g step_limit c = Continue c' →
     hop g step_limit c' = Continue c'' →
     cur c = "supervisor" ∨ cur c' = "supervisor").
Proof.
  intros Hg.
  assert (Hhop : ∀ step_limit c c',
            cur c ≠ "supervisor" → hop g step_limit c = Continue c' →
            cur c' = "supervisor").
  { intros step_limit c c' Hw [Hadv _]%hop_continue.
    apply advance_continue in Hadv as (_ & Hin & Hres & _).
    rewrite (worker_resolves _ _ _ Hg Hin Hw) in Hres. congruence. }
  split; [intros w; by apply worker_edges|]. split; [done|].
  intros step_limit c c' c'' Hc Hc'.
  destruct (decide (cur c = "supervisor")) as [|Hw]; [by left|].
  right. by eapply Hhop.
Qed.

End star.

(** In the research team, after the scraper comes the supervisor. *)
Lemma workers_return_to_supervisor_witness :
  hop (Research.research_graph never_finishing) 25
    (Config "WebScraper" ∅ 1 [])
  = Continue
      (Config "supervisor"
         {[ "messages" := VList [VMsg (HumanMessage "done" (Some "WebScraper"))] ]}
         2
         [("WebScraper",
           {[ "messages" :=
                VList [VMsg (HumanMessage "done" (Some "WebScraper"))] ]})]) ∧
  cur (Config "supervisor"
         {[ "messages" := VList [VMsg (HumanMessage "done" (Some "WebScraper"))] ]}
         2
         [("WebScraper",
           {[ "messages" :=
                VList [VMsg (HumanMessage "done" (Some "WebScraper"))] ]})])
  = "supervisor".
Proof.
  assert (Hhop : hop (Research.research_graph never_finishing) 25
                   (Config "WebScraper" ∅ 1 [])
                 = Continue
                     (Config "supervisor"
                        {[ "messages" :=
                             VList [VMsg (HumanMessage "done" (Some "WebScraper"))] ]}
                        2
                        [("WebScraper",
                          {[ "messages" :=
                               VList [VMsg (HumanMessage "done"
                                              (Some "WebScraper"))] ]})]))
    by (vm_compute; reflexivity).
  split; [exact Hhop|].
  destruct (workers_return_to_supervisor never_finishing Absent 25
              (Research.research_graph never_finishing)) as (_ & Hnext & _).
  - unfold program_graphs. repeat constructor.
  - eapply (Hnext 25%nat (Config "WebScraper" ∅ 1 [])); [discriminate|].
    exact Hhop.
Defined.

(** ** The step limit *)

Section step_limit.
Implicit Types (cg : CompiledGraph) (c : config) (o : outcome).



End step_limit.

(** * Further properties of the tools *)

(** ** Strings and lines *)

Section strings.
Implicit Types (s t : string) (ls : list string).

Lemma append_cons c s t : String c s +:+ t = String c (s +:+ t).
Proof. reflexivity. Qed.

Lemma append_nil_r s : s +:+ "" = s.
Proof.
  induction s as [|c s IH]; [done|]. by rewrite append_cons, IH.
Qed.

Lemma append_assoc s t r : (s +:+ t) +:+ r = s +:+ t +:+ r.
Proof.
  induction s as [|c s IH]; [done|]. by rewrite !append_cons, IH.
Qed.

Lemma length_append s t :
  String.length (s +:+ t) = (String.length s + String.length t)%nat.
Proof.
  induction s as [|c s IH]; [done|]. rewrite append_cons. simpl.
  by rewrite IH.
Qed.

Lemma has_lf_append s t : has_lf (s +:+ t) = has_lf s || has_lf t.
Proof.
  induction s as [|c s IH]; [done|]. rewrite append_cons. simpl.
  by rewrite IH, orb_assoc.
Qed.

Lemma join_cons sep s ls :
  ls ≠ [] → join sep (s :: ls) = s +:+ sep +:+ join sep ls.
Proof. by destruct ls. Qed.

Lemma writelines_cons s ls : writelines (s :: ls) = s +:+ writelines ls.
Proof.
  unfold writelines. destruct ls; simpl; [by rewrite append_nil_r|done].
Qed.

Lemma writelines_app ls ls' :
  writelines (ls ++ ls') = writelines ls +:+ writelines ls'.
Proof.
  induction ls as [|s ls IH]; [done|].
  rewrite <-app_comm_cons, !writelines_cons, IH. by rewrite append_assoc.
Qed.

Lemma length_join sep ls :
  String.length (join sep ls)
  = (total_length ls + String.length sep * (length ls - 1))%nat.
Proof.
  unfold total_length. induction ls as [|s ls IH]; [simpl; lia|].
  destruct ls as [|s' ls]; [simpl; lia|].
  rewrite join_cons, !length_append, IH by done. simpl. lia.
Qed.

Lemma total_length_readlines s :
  total_length (readlines s) = String.length s.
Proof.
  rewrite <-(writelines_readlines s) at 2. unfold writelines.
  pose proof (length_join "" (readlines s)) as H. unfold join in H.
  rewrite H. simpl. lia.
Qed.

Lemma readlines_nil s : readlines s = [] ↔ s = "".
Proof.
  split; [|by intros ->]. destruct s as [|c s]; [done|]. simpl.
  destruct (Ascii.eqb c LF); [done|]. by destruct (readlines s).
Qed.

(** A text without line feed is its own single line. *)
Lemma readlines_no_lf s :
  has_lf s = false → s ≠ "" → readlines s = [s].
Proof.
  induction s as [|c s IH]; [done|]. simpl.
  intros [Hc Hs]%orb_false_elim _. rewrite Hc.
  destruct s as [|c' s]; [done|]. by rewrite IH.
Qed.

(** A line without line feed, its line feed, and more text. *)
Lemma readlines_line t rest :
  has_lf t = false →
  readlines (t +:+ nl +:+ rest) = (t +:+ nl) :: readlines rest.
Proof.
  induction t as [|c t IH]; [done|]. rewrite !append_cons. simpl.
  intros [Hc Ht]%orb_false_elim. rewrite Hc. by rewrite IH.
Qed.

(** Full lines written one after the other are read back as they are. *)
Lemma readlines_writelines ls :
  Forall full_line ls → readlines (writelines ls) = ls.
Proof.
  induction 1 as [|l ls (t & -> & Ht) _ IH]; [done|].
  rewrite writelines_cons, append_assoc, readlines_line by done.
  by rewrite IH.
Qed.

(** The lines of a text that ends with a line feed are all full. *)
Lemma readlines_full_lines s : ends_with_lf s → Forall full_line (readlines s).
Proof.
  intros [->|[body ->]]; [constructor|].
  induction body as [|c body IH].
  { repeat constructor. by exists "". }
  rewrite append_cons. simpl. destruct (Ascii.eqb c LF) eqn:Hc.
  - constructor; [|done]. exists "". split; [|done].
    by apply Ascii.eqb_eq in Hc as ->.
  - destruct (readlines (body +:+ nl)) as [|l ls] eqn:Hl.
    { apply readlines_nil in Hl. by destruct body. }
    apply Forall_cons in IH as [(t & -> & Ht) IH]. constructor; [|done].
    exists (String c t). split; [done|]. simpl. by rewrite Hc, Ht.
Qed.

End strings.

(** ** The document tools, file by file *)

Section documents.
Implicit Types (fs : store) (ins : list (Z * string)) (lines : list string).

Lemma slice_whole {A} (l : list A) : slice None None l = l.
Proof.
  unfold slice. simpl. rewrite Z.sub_0_r, Nat2Z.id. simpl.
  by rewrite firstn_all.
Qed.

(** A slice from the start: a negative [stop] counts from the end, one
    beyond the end takes everything. *)
Lemma slice_from_start {A} (start : option Z) (stop : Z) (l : list A) :
  start = None ∨ start = Some 0 →
  slice start (Some stop) l
  = take (Z.to_nat (if stop <? 0 then stop + Z.of_nat (length l) else stop)) l.
Proof.
  intros Hstart. unfold slice.
  assert (slice_bound (Z.of_nat (length l)) 0 start = 0) as ->.
  { destruct Hstart as [->| ->]; [done|]. simpl. lia. }
  simpl. rewrite Z.sub_0_r, Z2Nat.inj_0, drop_0.
  destruct (Z.ltb_spec stop 0).
  - f_equal. lia.
  - destruct (Z.le_gt_cases stop (Z.of_nat (length l))).
    + by rewrite Z.min_l.
    + rewrite Z.min_r, Nat2Z.id by lia.
      by rewrite !take_ge by lia.
Qed.



(** X2.  Read without bounds, a file comes back longer than it is: the
    lines keep their line feed and are joined with one more, so the result
    has one character more per line after the first. *)
Theorem read_document_doubles_line_feeds fs file_name text :
  fs !! file_name = Some text →
  ∃ s, read_document fs file_name None None = Ok s ∧
    String.length s
    = (String.length text + (length (readlines text) - 1))%nat.
Proof.
  intros Hfile. unfold read_document, open_readlines. rewrite Hfile. simpl.
  eexists. split; [done|].
  rewrite slice_whole, length_join, total_length_readlines. simpl. lia.
Qed.

Lemma read_document_doubles_line_feeds_witness :
  ∃ s, read_document three_lines "doc.txt" None None = Ok s ∧
    String.length s = 8%nat.
Proof.
  destruct (read_document_doubles_line_feeds three_lines "doc.txt"
              ("a" +:+ nl +:+ "b" +:+ nl +:+ "c" +:+ nl) eq_refl)
    as (s & Hs & Hlen).
  exists s. split; [exact Hs|]. rewrite Hlen. reflexivity.
Defined.

(** X3.  With an end line [e], and whatever the start line, the tool
    returns the first [e] lines of the file, all of them when [e] is
    beyond the last one; a negative [e] leaves out that many lines at the
    end.  No bound makes it raise. *)
Theorem read_document_end_bound fs file_name text start (e : Z) :
  fs !! file_name = Some text →
  let lines := readlines text in
  read_document fs file_name start (Some e)
  = Ok (join nl
          (take (Z.to_nat (if e <? 0 then e + Z.of_nat (length lines) else e))
             lines)).
Proof.
  intros Hfile lines. unfold read_document, open_readlines.
  rewrite Hfile. simpl. f_equal. f_equal. apply slice_from_start.
  destruct start; auto.
Qed.

Lemma read_document_end_bound_witness :
  read_document three_lines "doc.txt" (Some 2) (Some (-1))
  = Ok ("a" +:+ nl +:+ nl +:+ "b" +:+ nl).
Proof.
  apply (read_document_end_bound three_lines "doc.txt"
           ("a" +:+ nl +:+ "b" +:+ nl +:+ "c" +:+ nl) (Some 2) (-1) eq_refl).
Defined.

(** X4.  When the open raises, [write_document] raises the same
    exception and writes nothing.  When the name opens the file of that
    name and the content has no line break, the tool returns its message,
    the document is read back as it was written, whatever the start line,
    and no other file of the store is touched. *)
Theorem write_document_read_back (open_w : opener) fs content file_name
    start :
  (∀ e, open_w file_name = Raise e →
     write_document open_w fs content file_name = (Raise e, fs)) ∧
  (opens_itself open_w file_name → has_break content = false →
     let r := write_document open_w fs content file_name in
     r.1 = Ok ("Document saved to " +:+ file_name) ∧
     read_document r.2 file_name start None = Ok content ∧
     ∀ path, path ≠ file_name → r.2 !! path = fs !! path).
Proof.
  unfold write_document, opens_itself. split; [by intros e ->|].
  intros -> [Hlf _]%orb_false_elim. simpl. split; [done|]. split.
  - unfold read_document, open_readlines. rewrite lookup_insert_eq. simpl.
    f_equal.
    assert (slice match start with Some _ => Some 0 | None => None end None
              (readlines content) = readlines content) as ->.
    { destruct start; [|apply slice_whole]. unfold slice. simpl.
      rewrite Z.min_l, Z.sub_0_r, Nat2Z.id, Z2Nat.inj_0, drop_0 by lia.
      by rewrite firstn_all. }
    destruct content as [|c content]; [done|].
    by rewrite readlines_no_lf.
  - intros path Hpath. by rewrite lookup_insert_ne.
Qed.

Lemma write_document_read_back_witness :
  opens_itself flat_directory "title.txt" ∧ has_break "Domains" = false ∧
  read_document (write_document flat_directory ∅ "Domains" "title.txt").2
    "title.txt" (Some 3) None
  = Ok "Domains".
Proof.
  split; [reflexivity|]. split; [reflexivity|].
  apply (write_document_read_back flat_directory ∅ "Domains" "title.txt"
           (Some 3)); reflexivity.
Defined.

Lemma sorted_inserts_empty : sorted_inserts ∅ = [].
Proof.
  apply Permutation_nil_r. by rewrite sorted_inserts_perm, map_to_list_empty.
Qed.

Lemma sorted_inserts_singleton k t : sorted_inserts {[ k := t ]} = [(k, t)].
Proof.
  apply Permutation_singleton_r.
  by rewrite sorted_inserts_perm, map_to_list_singleton.
Qed.

(** X5.  An edit with no insertion reports success and leaves the store,
    the edited file included, exactly as it was. *)
Theorem edit_document_without_inserts fs file_name text :
  fs !! file_name = Some text →
  edit_document fs file_name ∅ = (Ok (edited_msg file_name), fs).
Proof.
  intros Hfile. unfold edit_document, open_readlines.
  rewrite Hfile, sorted_inserts_empty. simpl.
  by rewrite writelines_readlines, insert_id.
Qed.

Lemma edit_document_without_inserts_witness :
  edit_document three_lines "doc.txt" ∅
  = (Ok (edited_msg "doc.txt"), three_lines).
Proof.
  apply (edit_document_without_inserts three_lines "doc.txt"
           ("a" +:+ nl +:+ "b" +:+ nl +:+ "c" +:+ nl)).
  reflexivity.
Defined.

End documents.

(** ** More on [edit_document] *)

Section edits.
Implicit Types (fs : store) (ins : list (Z * string)) (lines : list string).

Lemma list_insert_perm {A} (i : nat) (x : A) (l : list A) :
  (i ≤ length l)%nat → list_insert (Z.of_nat i) x l ≡ₚ x :: l.
Proof.
  intros Hi. rewrite list_insert_in_range by done.
  rewrite <-Permutation_middle. by rewrite take_drop.
Qed.

(** The loop adds the inserted lines to the old ones and nothing else. *)
Lemma insert_loop_perm ins lines lines' :
  insert_loop ins lines = inr lines' →
  lines' ≡ₚ lines ++ (inserted_line <$> ins).
Proof.
  revert lines. induction ins as [|[k t] ins IH]; intros lines Hl.
  { injection Hl as ->. by rewrite app_nil_r. }
  simpl in Hl. case_bool_decide as Hk; [|done].
  rewrite (IH _ Hl). simpl.
  replace (k - 1) with (Z.of_nat (Z.to_nat (k - 1))) by lia.
  rewrite list_insert_perm by lia. by rewrite <-Permutation_middle.
Qed.

(** What [edit_document] does on a file that is there. *)
Lemma edit_document_unfold fs file_name text (inserts : gmap Z string) :
  fs !! file_name = Some text →
  edit_document fs file_name inserts
  = match insert_loop (sorted_inserts inserts) (readlines text) with
    | inl err => (Ok err, fs)
    | inr lines' =>
        (Ok (edited_msg file_name), <[file_name := writelines lines']> fs)
    end.
Proof. intros Hfile. unfold edit_document, open_readlines. by rewrite Hfile. Qed.

(** A call that reports success ran the loop to its end. *)
Lemma edit_document_saved fs file_name text (inserts : gmap Z string) :
  fs !! file_name = Some text →
  (edit_document fs file_name inserts).1 = Ok (edited_msg file_name) →
  ∃ lines', insert_loop (sorted_inserts inserts) (readlines text) = inr lines' ∧
    (edit_document fs file_name inserts).2
    = <[file_name := writelines lines']> fs.
Proof.
  intros Hfile. rewrite (edit_document_unfold _ _ _ _ Hfile).
  destruct (insert_loop_cases (sorted_inserts inserts) (readlines text))
    as [(lines' & -> & _)|(i & k & -> & _)]; simpl.
  - intros _. by exists lines'.
  - intros Hmsg. exfalso. apply (edited_msg_not_error file_name k).
    congruence.
Qed.

(** X6.  After a successful edit the file consists of its old lines and of
    one line per insertion, the text followed by a line feed: no line is
    lost, none is written twice. *)
Theorem edit_document_adds_lines_only fs file_name text
    (inserts : gmap Z string) :
  fs !! file_name = Some text →
  (edit_document fs file_name inserts).1 = Ok (edited_msg file_name) →
  ∃ lines',
    (edit_document fs file_name inserts).2
    = <[file_name := writelines lines']> fs ∧
    lines' ≡ₚ readlines text ++ (inserted_line <$> map_to_list inserts).
Proof.
  intros Hfile Hok.
  destruct (edit_document_saved _ _ _ _ Hfile Hok) as (lines' & Hl & Hfs).
  exists lines'. split; [done|].
  rewrite (insert_loop_perm _ _ _ Hl). by rewrite sorted_inserts_perm.
Qed.

Lemma edit_document_adds_lines_only_witness :
  ∃ lines',
    (edit_document three_lines "doc.txt" {[ 2 := "X" ]}).2
    = <["doc.txt" := writelines lines']> three_lines ∧
    lines' ≡ₚ readlines ("a" +:+ nl +:+ "b" +:+ nl +:+ "c" +:+ nl)
              ++ (inserted_line <$> map_to_list ({[ 2 := "X" ]} : gmap Z string)).
Proof.
  apply (edit_document_adds_lines_only three_lines "doc.txt"
           ("a" +:+ nl +:+ "b" +:+ nl +:+ "c" +:+ nl) {[ 2 := "X" ]});
    reflexivity.
Defined.

(** X7.  One insertion at line [k] of a file of [n] lines, [1 ≤ k ≤ n+1],
    puts the text and a line feed between the first [k-1] lines and the
    rest: at line 1 the new line precedes the old text, at line [n+1] it
    follows it. *)
Theorem edit_document_single_insert fs file_name text (k : Z) t :
  fs !! file_name = Some text →
  let lines := readlines text in
  1 ≤ k ≤ Z.of_nat (length lines) + 1 →
  edit_document fs file_name {[ k := t ]}
  = (Ok (edited_msg file_name),
     <[file_name := writelines (take (Z.to_nat (k - 1)) lines)
                    +:+ t +:+ nl
                    +:+ writelines (drop (Z.to_nat (k - 1)) lines)]> fs) ∧
  (k = 1 →
     (edit_document fs file_name {[ k := t ]}).2
     = <[file_name := t +:+ nl +:+ text]> fs) ∧
  (k = Z.of_nat (length lines) + 1 →
     (edit_document fs file_name {[ k := t ]}).2
     = <[file_name := text +:+ t +:+ nl]> fs).
Proof.
  intros Hfile lines Hk.
  assert (Hedit : edit_document fs file_name {[ k := t ]}
            = (Ok (edited_msg file_name),
               <[file_name := writelines (take (Z.to_nat (k - 1)) lines)
                              +:+ t +:+ nl
                              +:+ writelines (drop (Z.to_nat (k - 1)) lines)]>
                 fs)).
  { rewrite (edit_document_unfold _ _ _ _ Hfile), sorted_inserts_singleton.
    simpl. fold lines. rewrite bool_decide_eq_true_2 by done.
    replace (k - 1) with (Z.of_nat (Z.to_nat (k - 1))) at 1 by lia.
    rewrite list_insert_in_range by (fold lines; lia).
    by rewrite writelines_app, writelines_cons, append_assoc. }
  split; [done|]. rewrite Hedit. simpl. split.
  - intros ->. simpl. rewrite drop_0. unfold lines.
    by rewrite writelines_readlines.
  - intros ->. replace (Z.of_nat (length lines) + 1 - 1)
      with (Z.of_nat (length lines)) by lia.
    rewrite Nat2Z.id, firstn_all, drop_all. unfold lines.
    rewrite writelines_readlines. unfold writelines at 1. simpl.
    by rewrite append_nil_r.
Qed.

Lemma edit_document_single_insert_witness :
  (edit_document three_lines "doc.txt" {[ 4 := "d" ]}).2
  = <["doc.txt" :=
        ("a" +:+ nl +:+ "b" +:+ nl +:+ "c" +:+ nl) +:+ "d" +:+ nl]>
      three_lines.
Proof.
  apply (edit_document_single_insert three_lines "doc.txt"
           ("a" +:+ nl +:+ "b" +:+ nl +:+ "c" +:+ nl) 4 "d" eq_refl).
  - simpl. lia.
  - reflexivity.
Defined.

(** X8.  A line number below 1, or above the number of lines of the file
    plus the number of insertions, makes the whole call fail: the
    out-of-range error is returned and nothing is written, not even the
    insertions that were in range. *)
Theorem edit_document_rejects_far_keys fs file_name text
    (inserts : gmap Z string) k t :
  fs !! file_name = Some text →
  inserts !! k = Some t →
  k < 1 ∨ Z.of_nat (length (readlines text) + size inserts) < k →
  out_of_range_error (edit_document fs file_name inserts) ∧
  (edit_document fs file_name inserts).2 = fs.
Proof.
  intros Hfile Hkt Hfar. rewrite (edit_document_unfold _ _ _ _ Hfile).
  destruct (insert_loop_cases (sorted_inserts inserts) (readlines text))
    as [(lines' & _ & Hall)|(i & k' & -> & _)].
  - exfalso. apply sorted_inserts_elem in Hkt.
    apply list_elem_of_lookup in Hkt as [i Hi].
    pose proof (lookup_lt_Some _ _ _ Hi) as Hlt.
    rewrite sorted_inserts_length in Hlt.
    specialize (Hall i k t Hi). unfold in_range in Hall. lia.
  - split; [by exists k'|done].
Qed.

Lemma edit_document_rejects_far_keys_witness :
  out_of_range_error
    (edit_document three_lines "doc.txt" {[ 1 := "title"; 0 := "zero" ]}) ∧
  (edit_document three_lines "doc.txt" {[ 1 := "title"; 0 := "zero" ]}).2
  = three_lines.
Proof.
  apply (edit_document_rejects_far_keys three_lines "doc.txt"
           ("a" +:+ nl +:+ "b" +:+ nl +:+ "c" +:+ nl)
           {[ 1 := "title"; 0 := "zero" ]} 0 "zero");
    [reflexivity|reflexivity|left; lia].
Defined.

(** X9.  When the file ends with a line feed (or is empty) and holds no
    carriage return, and no inserted text contains a line break, the file
    of a successful edit reads back line by line as the loop built it:
    every text is the line its key names. *)
Theorem edit_document_read_back fs file_name text (inserts : gmap Z string) :
  fs !! file_name = Some text →
  ends_with_lf text → has_cr text = false →
  (∀ k t, inserts !! k = Some t → has_break t = false) →
  (edit_document fs file_name inserts).1 = Ok (edited_msg file_name) →
  ∃ lines',
    open_readlines (edit_document fs file_name inserts).2 file_name
    = Ok lines' ∧
    length lines' = (length (readlines text) + size inserts)%nat ∧
    ∀ k t, inserts !! k = Some t →
      lines' !! Z.to_nat (k - 1) = Some (t +:+ nl).
Proof.
  intros Hfile Hend _ Htexts Hok.
  destruct (edit_document_saved _ _ _ _ Hfile Hok) as (lines' & Hl & ->).
  exists lines'. unfold open_readlines. rewrite lookup_insert_eq.
  assert (Hfull : Forall full_line lines').
  { rewrite (insert_loop_perm _ _ _ Hl). apply Forall_app.
    split; [by apply readlines_full_lines|].
    apply Forall_fmap, Forall_forall. intros [k t] Hin.
    exists t. split; [done|].
    apply sorted_inserts_elem, Htexts in Hin.
    by apply orb_false_elim in Hin as [? _]. }
  rewrite (readlines_writelines _ Hfull). split; [done|]. split.
  - by rewrite (insert_loop_length _ _ _ Hl), sorted_inserts_length.
  - intros k t Hkt. eapply insert_loop_placed;
      [apply sorted_inserts_ascending|done|by apply sorted_inserts_elem].
Qed.

Lemma edit_document_read_back_witness :
  ∃ lines',
    open_readlines (edit_document three_lines "doc.txt" {[ 2 := "X" ]}).2
      "doc.txt" = Ok lines' ∧
    lines' !! 1%nat = Some ("X" +:+ nl).
Proof.
  destruct (edit_document_read_back three_lines "doc.txt"
              ("a" +:+ nl +:+ "b" +:+ nl +:+ "c" +:+ nl) {[ 2 := "X" ]})
    as (lines' & Hread & _ & Hplaced).
  - reflexivity.
  - right. by exists ("a" +:+ nl +:+ "b" +:+ nl +:+ "c").
  - reflexivity.
  - intros k t [<- <-]%lookup_singleton_Some. reflexivity.
  - reflexivity.
  - exists lines'. split; [exact Hread|].
    apply (Hplaced 2 "X"). reflexivity.
Defined.

End edits.

(** ** [create_outline] *)

Section outline.
Implicit Types (fs : store) (points : list string).

Lemma pretty_N_char_not_lf (d : N) : Ascii.eqb (pretty_N_char d) LF = false.
Proof. unfold pretty_N_char. by repeat case_match. Qed.

Lemma has_lf_pretty_N_go (x : N) s :
  has_lf s = false → has_lf (pretty_N_go x s) = false.
Proof.
  revert s. induction (N.lt_wf_0 x) as [x _ IH]; intros s Hs.
  destruct (decide (x = 0)%N) as [->|Hx]; [by rewrite pretty_N_go_0|].
  rewrite pretty_N_go_step by lia. apply IH.
  - apply N.div_lt; lia.
  - simpl. by rewrite pretty_N_char_not_lf.
Qed.

Lemma has_lf_pretty_N (x : N) : has_lf (pretty x) = false.
Proof.
  unfold pretty, pretty_N. case_decide; [done|]. by apply has_lf_pretty_N_go.
Qed.

(** The decimal form of an integer has no line feed. *)
Lemma has_lf_str_of_int (i : Z) : has_lf (str_of_int i) = false.
Proof.
  unfold str_of_int, pretty, pretty_Z. destruct i as [|p|p]; [done|..].
  - apply has_lf_pretty_N.
  - rewrite has_lf_append. simpl. apply has_lf_pretty_N.
Qed.

Lemma outline_line_full i point :
  has_lf point = false → full_line (outline_line i point).
Proof.
  intros Hp. exists (str_of_int (Z.of_nat i + 1) +:+ ". " +:+ point). split.
  - unfold outline_line. by rewrite !append_assoc.
  - by rewrite !has_lf_append, has_lf_str_of_int, Hp.
Qed.

Lemma imap_full_lines (f : nat → string → string) points :
  (∀ i point, point ∈ points → full_line (f i point)) →
  Forall full_line (imap f points).
Proof.
  revert f. induction points as [|p points IH]; intros f Hf; [constructor|].
  simpl. constructor.
  - apply Hf. by left.
  - apply IH. intros i point Hin. apply Hf. by right.
Qed.

(** X10.  When the open raises, [create_outline] raises the same
    exception and writes nothing.  When the name opens the file of that
    name and no point contains a line break, the outline is saved as one
    line per point, the point after its number (from 1), a dot and a
    space; reading the file back gives exactly these lines, and any
    earlier content of the file is gone. *)
Theorem create_outline_read_back (open_w : opener) fs points file_name :
  (∀ e, open_w file_name = Raise e →
     create_outline open_w fs points file_name = (Raise e, fs)) ∧
  (opens_itself open_w file_name →
   Forall (λ point, has_break point = false) points →
   let r := create_outline open_w fs points file_name in
   r.1 = Ok ("Outline saved to " +:+ file_name) ∧
   open_readlines r.2 file_name = Ok (imap outline_line points) ∧
   (∀ i point, points !! i = Some point →
      imap outline_line points !! i
      = Some (str_of_int (Z.of_nat i + 1) +:+ ". " +:+ point +:+ nl)) ∧
   length (imap outline_line points) = length points).
Proof.
  unfold create_outline, opens_itself. split; [by intros e ->|].
  intros -> Hpoints. simpl. split; [done|]. split; [|split].
  - unfold open_readlines. rewrite lookup_insert_eq. f_equal.
    apply readlines_writelines.
    apply imap_full_lines. intros i point Hin. apply outline_line_full.
    eapply Forall_forall in Hpoints; [|done].
    by apply orb_false_elim in Hpoints as [? _].
  - intros i point Hi. by rewrite list_lookup_imap, Hi.
  - apply length_imap.
Qed.

Lemma create_outline_read_back_witness :
  opens_itself flat_directory "doc.txt" ∧
  open_readlines
    (create_outline flat_directory three_lines ["Domains"; "Hosting"]
       "doc.txt").2 "doc.txt"
  = Ok ["1. Domains" +:+ nl; "2. Hosting" +:+ nl].
Proof.
  split; [reflexivity|].
  apply (create_outline_read_back flat_directory three_lines
           ["Domains"; "Hosting"] "doc.txt"); [reflexivity|].
  repeat constructor.
Defined.

End outline.

(** ** The tools behind a service *)

Section services.
Variable w : World.

Lemma unit_result_ok (r : result unit) : returned r → r = Ok ().
Proof. by intros [[] ->]. Qed.

(** X11.  [scrape_webpages] on a list of URLs does what
    [scrape_references] does: the formatted pages when the loader returns,
    the loader's exception when it raises.  On a string it raises
    [NameError] for the name [json], which [tools.py] never imports,
    before anything is decoded or loaded; so in no world does a string
    argument yield pages. *)
Theorem scrape_webpages_by_argument :
  (∀ urls, scrape_webpages w (UrlList urls) = scrape_references w urls) ∧
  (∀ urls,
     scrape_references w urls
     = match web_load w (JStr <$> urls) with
       | Ok docs => Ok (format_documents docs)
       | Raise e => Raise e
       end) ∧
  (∀ s, scrape_webpages w (UrlStr s) = Raise (Exn NameError "json")) ∧
  (∀ urls, returned (scrape_webpages w urls) →
     ∃ l docs, urls = UrlList l ∧ web_load w (JStr <$> l) = Ok docs).
Proof.
  split; [done|]. split; [done|]. split; [done|].
  intros [s|l] [out Hout]; [discriminate Hout|].
  unfold scrape_webpages in Hout. simpl in Hout.
  destruct (web_load w (JStr <$> l)) as [docs|e] eqn:Hload; [|done].
  by exists l, docs.
Qed.

(** X12.  The two browser tools with a [finally] return exactly when the
    driver both starts and quits: a driver that fails to quit makes them
    raise even though the page was read, and the text read is lost.
    [gptzero_detect_ai_content] has no [finally] and returns exactly when
    the driver starts; [deepl_translate] always returns. *)
Theorem browser_tools_return_iff_driver_ok text timeout :
  (returned (google_translate w text timeout)
   ↔ chrome_start w = Ok () ∧ chrome_quit w = Ok ()) ∧
  (returned (quillbot_detect_ai_content w text timeout)
   ↔ chrome_start w = Ok () ∧ chrome_quit w = Ok ()) ∧
  (returned (gptzero_detect_ai_content w text timeout)
   ↔ chrome_start w = Ok ()) ∧
  returned (deepl_translate w text) ∧
  (∀ e, chrome_start w = Ok () → chrome_quit w = Raise e →
     google_translate w text timeout = Raise e ∧
     quillbot_detect_ai_content w text timeout = Raise e) ∧
  (∀ e, chrome_start w = Raise e →
     google_translate w text timeout = Raise e ∧
     quillbot_detect_ai_content w text timeout = Raise e ∧
     gptzero_detect_ai_content w text timeout = Raise e).
Proof.
  unfold google_translate, quillbot_detect_ai_content,
    gptzero_detect_ai_content, deepl_translate, finally_quit.
  unfold returned.
  destruct (chrome_start w) as [[]|e1]; destruct (chrome_quit w) as [[]|e2];
    simpl; naive_solver.
Qed.

End services.

Lemma browser_tools_return_iff_driver_ok_witness :
  chrome_start quit_fails = Ok () ∧
  google_translate quit_fails "hello" 10
  = Raise (Exn (ExternalError "WebDriverException") "gone").
Proof.
  split; [reflexivity|].
  destruct (browser_tools_return_iff_driver_ok quit_fails "hello" 10)
    as (_ & _ & _ & _ & Hquit & _).
  apply Hquit; reflexivity.
Defined.

Lemma scrape_webpages_by_argument_witness :
  ¬ returned (scrape_webpages offline (UrlStr "https://example.com")).
Proof.
  intros Hret.
  destruct (scrape_webpages_by_argument offline) as (_ & _ & _ & Hlist).
  destruct (Hlist _ Hret) as (l & docs & Habs & _). discriminate Habs.
Defined.

(** * Further properties of the glue functions of [agents.py] *)

Section glue.
Implicit Types (state resp upd : State) (m : Message).

(** X13.  [get_last_message] returns exactly when [messages] is a list
    whose last item is a message, and then returns that message's
    content.  Without the key it raises [KeyError], on an empty list
    [IndexError]; a team mounted as a node then raises the same exception
    and its chain is never called. *)
Theorem get_last_message_needs_a_message
    (team_chain : string → result State) state :
  (∀ c, get_last_message state = Ok c ↔
     ∃ (ms : list value) m,
       state !! "messages" = Some (VList (ms ++ [VMsg m])) ∧ content m = c) ∧
  (state !! "messages" = None →
     get_last_message state = Raise (Exn KeyError "messages")) ∧
  (state !! "messages" = Some (VList []) →
     get_last_message state
     = Raise (Exn IndexError "list index out of range")) ∧
  (∀ e, get_last_message state = Raise e →
     mount team_chain state = Raise e).
Proof.
  split; [|split; [|split]].
  - intros c. unfold get_last_message, get_messages. split.
    + destruct (state !! "messages") as [[s|m|items]|]; simpl; [| |..|done].
      * by destruct (last (String.list_ascii_of_string s)).
      * done.
      * destruct (last items) as [[s|m|items']|] eqn:Hlast; simpl; try done.
        intros [= <-]. apply last_Some in Hlast as [ms ->]. by exists ms, m.
    + intros (ms & m & -> & <-). simpl. by rewrite last_snoc.
  - unfold get_last_message, get_messages. by intros ->.
  - unfold get_last_message, get_messages. by intros ->.
  - intros e He. unfold mount, pipe. by rewrite He.
Qed.

Lemma get_last_message_needs_a_message_witness :
  mount sample_team_chain ∅ = Raise (Exn KeyError "messages").
Proof.
  apply (get_last_message_needs_a_message sample_team_chain ∅).
  apply (get_last_message_needs_a_message sample_team_chain ∅).
  reflexivity.
Defined.

(** X14.  The seed that either [enter_chain] builds holds one message, the
    human message it was given: [get_last_message] on the seed returns
    the content it was built from.  The authoring seed also carries the
    member names, joined by ", ", which [join_graph] drops again. *)
Theorem enter_chain_seeds_the_message message (members : list string) :
  (∃ seed, Research.enter_chain message = Ok seed ∧
     get_last_message seed = Ok message ∧
     join_graph seed = Ok seed) ∧
  (∃ seed, Authoring.enter_chain message members = Ok seed ∧
     get_last_message seed = Ok message ∧
     seed !! "team_members" = Some (VStr (join ", " members)) ∧
     join_graph seed = Research.enter_chain message).
Proof.
  split; eexists; (split; [reflexivity|]).
  - by split.
  - repeat split.
Qed.

(** X15.  What [join_graph] returns has the one key [messages], holding a
    list of one item, the last item of the response; applied to its own
    result it returns it unchanged. *)
Theorem join_graph_keeps_one_item resp upd :
  join_graph resp = Ok upd →
  ∃ item, upd = {[ "messages" := VList [item] ]} ∧
    (∃ msgs, resp !! "messages" = Some msgs ∧ last_item msgs = Ok item) ∧
    join_graph upd = Ok upd.
Proof.
  unfold join_graph at 1, get_messages.
  destruct (resp !! "messages") as [msgs|] eqn:Hmsgs; simpl; [|done].
  destruct (last_item msgs) as [item|e] eqn:Hlast; simpl; [|done].
  intros [= <-]. exists item. split; [done|]. split; [by exists msgs|].
  unfold join_graph, get_messages. by rewrite lookup_singleton_eq.
Qed.

Lemma join_graph_keeps_one_item_witness :
  ∃ item,
    ({[ "messages" := VList [VMsg (HumanMessage "final" (Some "Translator"))] ]}
       : State)
    = {[ "messages" := VList [item] ]}.
Proof.
  destruct (join_graph_keeps_one_item (sample_response "go")
              {[ "messages" :=
                   VList [VMsg (HumanMessage "final" (Some "Translator"))] ]})
    as (item & Hupd & _); [reflexivity|].
  by exists item.
Defined.

(** X16.  [prelude] is idempotent, ignores whatever [current_files] the
    incoming state holds, and adds no key but [current_files]. *)
Theorem prelude_idempotent wd state (v : value) :
  prelude wd (prelude wd state) = prelude wd state ∧
  prelude wd (<["current_files" := v]> state) = prelude wd state ∧
  dom (prelude wd state) = {["current_files"]} ∪ dom state.
Proof.
  unfold prelude. destruct (written_files wd) as [|f files];
    by rewrite !insert_insert_eq, dom_insert_L.
Qed.

(** X17.  [current_files] says "No files written." exactly when the
    listing has no entry, which covers three cases the agent cannot tell
    apart: the directory was absent and has just been created, it is
    empty, or listing it raised. *)
Theorem prelude_no_files_iff wd state :
  (prelude wd state !! "current_files" = Some (VStr "No files written.")
   ↔ written_files wd = []) ∧
  (written_files wd = []
   ↔ wd = Absent ∨ wd = Present (Ok []) ∨ ∃ e, wd = Present (Raise e)).
Proof.
  split.
  - unfold prelude. destruct (written_files wd) as [|f files];
      rewrite lookup_insert_eq; [done|].
    split; [|done]. by intros [=].
  - destruct wd as [|[files|e]].
    + split; [auto|done].
    + rewrite written_files_present.
      split; [intros ->; auto|]. by intros [|[[= ->]|[e [=]]]].
    + split; [eauto|done].
Qed.

End glue.

(** * The graphs and their rosters *)

Section rosters.
Variables (u : Utilities) (wd : working_directory) (inner_limit : nat).

Lemma research_nodes :
  nodes (Research.research_graph u)
  = ["WebScraper"; "Search"; "ReferencesScraper"; "Translator"; "supervisor"].
Proof. reflexivity. Qed.

Lemma authoring_nodes :
  nodes (Authoring.authoring_graph u wd)
  = ["DocWriter"; "NoteTaker"; "supervisor"].
Proof. reflexivity. Qed.

Lemma super_nodes :
  nodes (super_graph u wd inner_limit)
  = ["ResearchTeam"; "PaperWritingTeam"; "supervisor"].
Proof. reflexivity. Qed.

(** X18.  In each of the three graphs the member list handed to the
    supervisor names exactly the nodes of the graph other than the
    supervisor, and the supervisor's conditional edge sends each of these
    names to the node of that name, FINISH to [END], and has no other
    key. *)
Theorem supervisors_route_their_rosters :
  ((∃ prompt, Research.supervisor_agent u
              = create_team_supervisor u prompt research_members) ∧
   (∀ n, n ∈ research_members
         ↔ n ∈ nodes (Research.research_graph u) ∧ n ≠ "supervisor") ∧
   routes_roster (Research.research_graph u) research_members) ∧
  ((∃ prompt, Authoring.doc_writing_supervisor u
              = create_team_supervisor u prompt authoring_members) ∧
   (∀ n, n ∈ authoring_members
         ↔ n ∈ nodes (Authoring.authoring_graph u wd) ∧ n ≠ "supervisor") ∧
   routes_roster (Authoring.authoring_graph u wd) authoring_members) ∧
  ((∃ prompt, supervisor_node u
              = create_team_supervisor u prompt team_names) ∧
   (∀ n, n ∈ team_names
         ↔ n ∈ nodes (super_graph u wd inner_limit) ∧ n ≠ "supervisor") ∧
   routes_roster (super_graph u wd inner_limit) team_names).
Proof.
  split; [|split]; (split; [by eexists|]); split.
  - intros n. rewrite research_nodes. unfold research_members.
    rewrite !elem_of_cons, !elem_of_nil. naive_solver.
  - eexists. split; [reflexivity|]. intros key dst.
    unfold research_members, END.
    rewrite !elem_of_cons, !elem_of_nil. naive_solver.
  - intros n. rewrite authoring_nodes. unfold authoring_members.
    rewrite !elem_of_cons, !elem_of_nil. naive_solver.
  - eexists. split; [reflexivity|]. intros key dst.
    unfold authoring_members, END.
    rewrite !elem_of_cons, !elem_of_nil. naive_solver.
  - intros n. rewrite super_nodes. unfold team_names.
    rewrite !elem_of_cons, !elem_of_nil. naive_solver.
  - eexists. split; [reflexivity|]. intros key dst.
    unfold team_names, END.
    rewrite !elem_of_cons, !elem_of_nil. naive_solver.
Qed.

(** X19.  The member names in the authoring seed are the keys of
    [authoring_graph.nodes], so the supervisor is listed among the team
    members it is told about: the field reads
    "DocWriter, NoteTaker, supervisor", one name more than its roster. *)
Theorem authoring_seed_lists_the_supervisor message :
  Authoring.enter_chain message (nodes (Authoring.authoring_graph u wd))
  = Ok {[ "messages" := VList [VMsg (HumanMessage message None)];
          "team_members" := VStr "DocWriter, NoteTaker, supervisor" ]} ∧
  nodes (Authoring.authoring_graph u wd) = authoring_members ++ ["supervisor"] ∧
  "supervisor" ∉ authoring_members.
Proof.
  split; [reflexivity|]. split; [reflexivity|].
  unfold authoring_members. rewrite !elem_of_cons, elem_of_nil. naive_solver.
Qed.

End rosters.

(** * Edits one after the other *)

Section edit_twice.
Implicit Types (fs : store) (lines : list string).

Lemma sorted_inserts_pair (k k' : Z) t t' :
  k < k' → sorted_inserts {[ k := t; k' := t' ]} = [(k, t); (k', t')].
Proof.
  intros Hlt.
  pose proof (sorted_inserts_ascending {[ k := t; k' := t' ]}) as Hsorted.
  pose proof (sorted_inserts_perm {[ k := t; k' := t' ]}) as Hperm.
  rewrite map_to_list_insert, map_to_list_singleton in Hperm
    by (apply lookup_singleton_ne; lia).
  destruct (sorted_inserts {[ k := t; k' := t' ]}) as [|a [|b [|c ins]]];
    try (apply Permutation_length in Hperm; simpl in Hperm; lia).
  assert (Ha : a ∈ [(k, t); (k', t')]) by (rewrite <-Hperm; by left).
  assert (Hb : b ∈ [(k, t); (k', t')]) by (rewrite <-Hperm; right; by left).
  apply StronglySorted_inv in Hsorted as [_ Hab].
  apply Forall_cons in Hab as [Hab _]. unfold key_lt in Hab.
  rewrite !elem_of_cons, elem_of_nil in Ha, Hb.
  destruct Ha as [->|[->|[]]], Hb as [->|[->|[]]]; simpl in Hab;
    (done || lia).
Qed.

(** X20.  Two insertions that are both in range give the same file
    whether they are made by one call or, in ascending order, by two calls
    in a row, provided the file ends with a line feed and holds no
    carriage return, and the first text contains no line break (so that
    the file of the first call reads back line by line). *)
Theorem edit_document_twice fs file_name text (k k' : Z) t t' :
  fs !! file_name = Some text →
  ends_with_lf text → has_cr text = false → has_break t = false →
  k < k' →
  1 ≤ k ≤ Z.of_nat (length (readlines text)) + 1 →
  k' ≤ Z.of_nat (length (readlines text)) + 2 →
  edit_document (edit_document fs file_name {[ k := t ]}).2 file_name
    {[ k' := t' ]}
  = edit_document fs file_name {[ k := t; k' := t' ]}.
Proof.
  intros Hfile Hend _ [Ht _]%orb_false_elim Hlt Hk Hk'.
  set (lines1 := list_insert (k - 1) (t +:+ nl) (readlines text)).
  assert (Hlen : length lines1 = S (length (readlines text))).
  { unfold lines1. replace (k - 1) with (Z.of_nat (Z.to_nat (k - 1))) by lia.
    apply list_insert_length. lia. }
  assert (Hfull : Forall full_line lines1).
  { unfold lines1. replace (k - 1) with (Z.of_nat (Z.to_nat (k - 1))) by lia.
    rewrite list_insert_perm by lia. constructor; [by exists t|].
    by apply readlines_full_lines. }
  assert (Hfirst : edit_document fs file_name {[ k := t ]}
                   = (Ok (edited_msg file_name),
                      <[file_name := writelines lines1]> fs)).
  { rewrite (edit_document_unfold _ _ _ _ Hfile), sorted_inserts_singleton.
    simpl. by rewrite bool_decide_eq_true_2. }
  rewrite Hfirst. simpl.
  rewrite (edit_document_unfold _ _ (writelines lines1))
    by apply lookup_insert_eq.
  rewrite (edit_document_unfold _ _ _ _ Hfile).
  rewrite sorted_inserts_singleton, sorted_inserts_pair by done.
  rewrite (readlines_writelines _ Hfull). simpl.
  rewrite (bool_decide_eq_true_2 (1 ≤ k ≤ _)) by done. fold lines1.
  rewrite Hlen. rewrite (bool_decide_eq_true_2 (1 ≤ k' ≤ _)) by lia.
  by rewrite insert_insert_eq.
Qed.

Lemma edit_document_twice_witness :
  edit_document (edit_document three_lines "doc.txt" {[ 1 := "title" ]}).2
    "doc.txt" {[ 5 := "end" ]}
  = edit_document three_lines "doc.txt" {[ 1 := "title"; 5 := "end" ]}.
Proof.
  apply (edit_document_twice three_lines "doc.txt"
           ("a" +:+ nl +:+ "b" +:+ nl +:+ "c" +:+ nl) 1 5 "title" "end").
  - reflexivity.
  - right. by exists ("a" +:+ nl +:+ "b" +:+ nl +:+ "c").
  - reflexivity.
  - reflexivity.
  - lia.
  - simpl. lia.
  - simpl. lia.
Defined.

(** X21.  A batch is all or nothing where two calls are not: when the
    first insertion is in range and the second is not, the single call
    returns the error and writes nothing, while the two calls in a row
    leave the first insertion in the file.  The file is taken to end with
    a line feed and to hold no carriage return, the first text to contain
    no line break, so that the second call reads the lines the first one
    wrote. *)
Theorem edit_document_batch_is_atomic fs file_name text (k k' : Z) t t' :
  fs !! file_name = Some text →
  ends_with_lf text → has_cr text = false → has_break t = false →
  k < k' →
  1 ≤ k ≤ Z.of_nat (length (readlines text)) + 1 →
  Z.of_nat (length (readlines text)) + 2 < k' →
  edit_document fs file_name {[ k := t; k' := t' ]}
  = (Ok (out_of_range_msg k'), fs) ∧
  edit_document (edit_document fs file_name {[ k := t ]}).2 file_name
    {[ k' := t' ]}
  = (Ok (out_of_range_msg k'),
     <[file_name := writelines
                      (list_insert (k - 1) (t +:+ nl) (readlines text))]> fs).
Proof.
  intros Hfile Hend _ [Ht _]%orb_false_elim Hlt Hk Hk'.
  set (lines1 := list_insert (k - 1) (t +:+ nl) (readlines text)).
  assert (Hlen : length lines1 = S (length (readlines text))).
  { unfold lines1. replace (k - 1) with (Z.of_nat (Z.to_nat (k - 1))) by lia.
    apply list_insert_length. lia. }
  assert (Hfull : Forall full_line lines1).
  { unfold lines1. replace (k - 1) with (Z.of_nat (Z.to_nat (k - 1))) by lia.
    rewrite list_insert_perm by lia. constructor; [by exists t|].
    by apply readlines_full_lines. }
  split.
  - rewrite (edit_document_unfold _ _ _ _ Hfile), sorted_inserts_pair by done.
    simpl. rewrite (bool_decide_eq_true_2 (1 ≤ k ≤ _)) by done.
    fold lines1. rewrite Hlen. by rewrite bool_decide_eq_false_2 by lia.
  - assert (Hfirst : edit_document fs file_name {[ k := t ]}
                     = (Ok (edited_msg file_name),
                        <[file_name := writelines lines1]> fs)).
    { rewrite (edit_document_unfold _ _ _ _ Hfile), sorted_inserts_singleton.
      simpl. by rewrite bool_decide_eq_true_2. }
    rewrite Hfirst. simpl.
    rewrite (edit_document_unfold _ _ (writelines lines1))
      by apply lookup_insert_eq.
    rewrite sorted_inserts_singleton, (readlines_writelines _ Hfull). simpl.
    rewrite Hlen. by rewrite bool_decide_eq_false_2 by lia.
Qed.

Lemma edit_document_batch_is_atomic_witness :
  edit_document three_lines "doc.txt" {[ 1 := "title"; 9 := "end" ]}
  = (Ok (out_of_range_msg 9), three_lines).
Proof.
  apply (edit_document_batch_is_atomic three_lines "doc.txt"
           ("a" +:+ nl +:+ "b" +:+ nl +:+ "c" +:+ nl) 1 9 "title" "end").
  - reflexivity.
  - right. by exists ("a" +:+ nl +:+ "b" +:+ nl +:+ "c").
  - reflexivity.
  - reflexivity.
  - lia.
  - simpl. lia.
  - simpl. lia.
Defined.

End edit_twice.

(** * A last line without line feed *)

Section unfinished_line.
Implicit Types (fs : store).

(** X22.  When the file is one line without a final line feed, a text
    without line break inserted at line 2 is glued to that line: the call
    reports success, but the file reads back as a single line, the old
    text directly followed by the new one. *)
Theorem edit_document_glues_unfinished_line fs file_name text t :
  fs !! file_name = Some text →
  text ≠ "" → has_break text = false → has_break t = false →
  edit_document fs file_name {[ 2 := t ]}
  = (Ok (edited_msg file_name), <[file_name := text +:+ t +:+ nl]> fs) ∧
  open_readlines (edit_document fs file_name {[ 2 := t ]}).2 file_name
  = Ok [text +:+ t +:+ nl].
Proof.
  intros Hfile Hne [Htext _]%orb_false_elim [Ht _]%orb_false_elim.
  assert (Hedit : edit_document fs file_name {[ 2 := t ]}
            = (Ok (edited_msg file_name),
               <[file_name := text +:+ t +:+ nl]> fs)).
  { rewrite (edit_document_unfold _ _ _ _ Hfile), sorted_inserts_singleton.
    rewrite (readlines_no_lf _ Htext Hne). simpl.
    unfold list_insert, writelines. simpl. done. }
  split; [done|]. rewrite Hedit. unfold open_readlines. simpl.
  rewrite lookup_insert_eq. f_equal.
  rewrite <-(append_nil_r (text +:+ t +:+ nl)), <-!append_assoc.
  rewrite append_assoc, readlines_line; [done|].
  by rewrite has_lf_append, Htext, Ht.
Qed.

Lemma edit_document_glues_unfinished_line_witness :
  open_readlines
    (edit_document {[ "title.txt" := "Domains" ]} "title.txt"
       {[ 2 := "Hosting" ]}).2 "title.txt"
  = Ok ["Domains" +:+ "Hosting" +:+ nl].
Proof.
  apply (edit_document_glues_unfinished_line {[ "title.txt" := "Domains" ]}
           "title.txt" "Domains" "Hosting");
    [reflexivity|discriminate|reflexivity|reflexivity].
Defined.

End unfinished_line.

(** * The contract of [edit_document] *)

Section edit_contract.
Implicit Types (ins : list (Z * string)) (fs : store).

Lemma writelines_foldr (ls : list string) :
  writelines ls = foldr String.append "" ls.
Proof.
  induction ls as [|l ls IH]; [done|]. by rewrite writelines_cons, IH.
Qed.

(** C5, as stated, fails: on the one-line document, inserting a text of
    two lines at line 1 and another text at line 2 succeeds, and line 2 of
    the written file is the second line of the first text, not the text
    given for line 2. *)
Lemma edit_document_line_numbers_shift :
  (edit_document one_line "t.txt" two_line_insert).1
  = Ok "Document edited and saved to t.txt" ∧
  ∃ lines',
    open_readlines (edit_document one_line "t.txt" two_line_insert).2 "t.txt"
    = Ok lines' ∧
    two_line_insert !! 2 = Some "c" ∧
    lines' !! 1%nat = Some ("b" +:+ nl) ∧
    lines' !! 1%nat ≠ Some ("c" +:+ nl).
Proof.
  split; [reflexivity|].
  exists ["a" +:+ nl; "b" +:+ nl; "c" +:+ nl; "x" +:+ nl].
  split; [reflexivity|]. split; [reflexivity|]. split; [reflexivity|].
  discriminate.
Qed.

(** C5, as amended.  [edit_document] on an existing file processes the
    insertions in ascending key order, on the lines of the file (its text
    cut after every line feed).  It returns the out-of-range error exactly
    when some insertion's line number is outside [1, lines + 1] for the
    number of lines the list has when that insertion's turn comes; the
    error names the first such line number and leaves the store as it
    was.  Otherwise every text, with a line feed after it, is inserted as
    one item of the list at the place its key names, the old lines keep
    their order, the items of the list written one after the other
    become the file, and the message "Document edited and saved to"
    followed by the file name is returned.  When the file ended with a
    line feed (or was empty) and held no carriage return, and no text
    contains a line break, the lines of the written file are the items of
    that list: every text is the line its key names. *)
Theorem edit_document_inserts_in_key_order fs file_name text
    (inserts : gmap Z string) :
  fs !! file_name = Some text →
  let ins := sorted_inserts inserts in
  let lines := readlines text in
  let n0 := length lines in
  let r := edit_document fs file_name inserts in
  (StronglySorted key_lt ins ∧
   (∀ k t, (k, t) ∈ ins ↔ inserts !! k = Some t) ∧
   foldr String.append "" lines = text) ∧
  ((∃ k, r.1 = Ok ("Error: Line number " +:+ str_of_int k
                   +:+ " is out of range."))
   ↔ ∃ i k, first_out_of_range ins n0 i k) ∧
  (∀ i k, first_out_of_range ins n0 i k →
     r = (Ok ("Error: Line number " +:+ str_of_int k
              +:+ " is out of range."), fs)) ∧
  ((¬ ∃ i k, first_out_of_range ins n0 i k) →
     ∃ lines',
       r = (Ok ("Document edited and saved to " +:+ file_name),
            <[file_name := foldr String.append "" lines']> fs) ∧
       length lines' = (n0 + size inserts)%nat ∧
       (∀ k t, inserts !! k = Some t →
          lines' !! Z.to_nat (k - 1) = Some (t +:+ nl)) ∧
       lines `sublist_of` lines' ∧
       (ends_with_lf text → has_cr text = false →
        (∀ k t, inserts !! k = Some t → has_break t = false) →
        open_readlines r.2 file_name = Ok lines')).
Proof.
  intros Hfile ins lines n0 r.
  assert (Hr : r = match insert_loop ins lines with
                   | inl err => (Ok err, fs)
                   | inr lines' =>
                       (Ok (edited_msg file_name),
                        <[file_name := writelines lines']> fs)
                   end).
  { unfold r. by rewrite (edit_document_unfold _ _ _ _ Hfile). }
  split.
  { split; [apply sorted_inserts_ascending|].
    split; [apply sorted_inserts_elem|].
    unfold lines. by rewrite <-writelines_foldr, writelines_readlines. }
  destruct (insert_loop_cases ins lines)
    as [(lines' & Hl & Hall)|(i & k & Hl & Hfirst)];
    rewrite Hl in Hr; fold n0 in Hall || fold n0 in Hfirst.
  - assert (Hnone : ¬ ∃ i k, first_out_of_range ins n0 i k).
    { intros (i & k & [t Hi] & Hout & _). destruct Hout. by eapply Hall. }
    split; [|split].
    + split; [|by intros ?]. intros [k Hk]. rewrite Hr in Hk.
      simpl in Hk. exfalso. apply (edited_msg_not_error file_name k).
      unfold out_of_range_msg. congruence.
    + intros i k Hfirst. destruct Hnone; eauto.
    + intros _. exists lines'. split; [by rewrite Hr, writelines_foldr|].
      split; [|split; [|split]].
      * rewrite (insert_loop_length _ _ _ Hl).
        unfold ins. by rewrite sorted_inserts_length.
      * intros k t Hk. eapply insert_loop_placed;
          [apply sorted_inserts_ascending|done|by apply sorted_inserts_elem].
      * by eapply insert_loop_sublist.
      * intros Hend _ Htexts. rewrite Hr. simpl.
        unfold open_readlines. rewrite lookup_insert_eq. f_equal.
        apply readlines_writelines.
        rewrite (insert_loop_perm _ _ _ Hl). apply Forall_app.
        split; [by apply readlines_full_lines|].
        apply Forall_fmap, Forall_forall. intros [k t] Hin.
        exists t. split; [done|].
        apply sorted_inserts_elem, Htexts in Hin.
        by apply orb_false_elim in Hin as [? _].
  - split; [|split].
    + split; [eauto|]. intros _. exists k. by rewrite Hr.
    + intros i' k' Hfirst'.
      destruct (first_out_of_range_unique _ _ _ _ _ _ Hfirst Hfirst')
        as [_ <-].
      by rewrite Hr.
    + intros Hnone. destruct Hnone; eauto.
Qed.

(** On the three-line document, inserting at line 9 is refused. *)
Lemma edit_document_inserts_in_key_order_witness :
  three_lines !! "doc.txt" = Some ("a" +:+ nl +:+ "b" +:+ nl +:+ "c" +:+ nl) ∧
  edit_document three_lines "doc.txt" {[ 2 := "X"; 9 := "Y" ]}
  = (Ok "Error: Line number 9 is out of range.", three_lines).
Proof.
  split; [reflexivity|].
  destruct (edit_document_inserts_in_key_order three_lines "doc.txt"
              ("a" +:+ nl +:+ "b" +:+ nl +:+ "c" +:+ nl)
              {[ 2 := "X"; 9 := "Y" ]} eq_refl)
    as (_ & _ & Herror & _).
  apply (Herror 1%nat 9).
  split; [by exists "Y"|].
  split; [vm_compute; intros [_ H]; by apply H|].
  intros [|j] k' t' Hj Hk; [|lia].
  vm_compute in Hk. injection Hk as <- <-. vm_compute. split; discriminate.
Defined.

End edit_contract.
